(** * A Lamport-style one-time signature scheme and its key-reuse forgery

    Shallow embedding of [problem_sets/hash_based_signature_scheme/main.go]
    and [forge.go].  Bytes ([uint8]) are integers in [0, 256); the fixed-size
    Go arrays [[32]byte] and [[256]Block] are lists, read with stdpp's total
    lookup and written with stdpp's insert (Go's array types keep every index
    of the program in range, so neither the default of the lookup nor the
    no-op of an out-of-range insert is ever reached on well-formed values).
    [sha256.Sum256] belongs to Go's standard library: it is a parameter of
    the development, and nothing proved below depends on which function it
    is.  The hex decoders, the key generation from [crypto/rand] and the
    concurrent candidate search of [Forge] are not embedded; the loops of
    [Forge] that build the coverage, estimate the difficulty, test a
    candidate and assemble the forged signature are. *)

From Stdlib Require Import ZArith Lia String Ascii DecimalString DecimalZ DecimalPos.
From stdpp Require Import base numbers list.

(** ** Control flow

    A Go loop body either falls through to the next iteration with an updated
    state, or leaves the enclosing function ([return], [panic]). *)

Inductive ctl (R St : Type) : Type :=
| Continue (s : St)
| Break (r : R).
Arguments Continue {R St} s.
Arguments Break {R St} r.

(** What a function returns when the statement after its loops is
    [return k s]. *)
Definition returns {R St} (c : ctl R St) (k : St -> R) : R :=
  match c with
  | Continue s => k s
  | Break r => r
  end.

(** [for i, x := range l { body }], counting from [i]. *)
Fixpoint for_range {A R St} (i : nat) (l : list A)
    (body : nat -> A -> St -> ctl R St) (s : St) : ctl R St :=
  match l with
  | [] => Continue s
  | x :: l' =>
      match body i x s with
      | Continue s' => for_range (S i) l' body s'
      | Break r => Break r
      end
  end.

(** [for j := i; j < i + n; j++ { body }]. *)
Fixpoint for_count {R St} (i n : nat) (body : nat -> St -> ctl R St) (s : St)
    : ctl R St :=
  match n with
  | O => Continue s
  | S n' =>
      match body i s with
      | Continue s' => for_count (S i) n' body s'
      | Break r => Break r
      end
  end.

(** [for j := 0; j < n; j++ { body }]. *)
Definition for_lt {R St} (n : nat) (body : nat -> St -> ctl R St) (s : St)
    : ctl R St :=
  for_count 0 n body s.

(** The iterations of a loop as a list of items, folded in order; every loop
    above unrolls to one of these, which is where invariants are proved. *)
Fixpoint run {X R St} (step : X -> St -> ctl R St) (xs : list X) (s : St)
    : ctl R St :=
  match xs with
  | [] => Continue s
  | x :: xs' =>
      match step x s with
      | Continue s' => run step xs' s'
      | Break r => Break r
      end
  end.

(** The (index, element) pairs a [range] loop visits. *)
Fixpoint indexed {A} (i : nat) (l : list A) : list (nat * A) :=
  match l with
  | [] => []
  | x :: l' => (i, x) :: indexed (S i) l'
  end.

(** ** Bytes *)

Local Open Scope Z_scope.

Definition is_byte (b : Z) : Prop := 0 <= b < 256.

(** [b >> n] on a [uint8]. *)
Definition shr8 (b : Z) (n : nat) : Z := Z.shiftr b (Z.of_nat n).

(** [b << n] on a [uint8]: the bits shifted past bit 7 are lost. *)
Definition shl8 (b : Z) (n : nat) : Z := Z.shiftl b (Z.of_nat n) mod 256.

(** [^b] on a [uint8]. *)
Definition not8 (b : Z) : Z := Z.lxor b 255.

Local Close Scope Z_scope.

(** ** Data model (main.go, lines 84-118) *)

Definition MESSAGE_BITS : nat := 256.
Definition MESSAGE_BYTES : nat := MESSAGE_BITS / 8.

(** [type Block [MESSAGE_BYTES]byte] and [type Message [MESSAGE_BYTES]byte];
    [wf_Block] and [wf_Message] below single out their values. *)
Abbreviation Block := (list Z).
Abbreviation Message := (list Z).

Module PublicKey.
Record t : Type := Build { ZeroHash : list Block; OneHash : list Block }.
End PublicKey.

Module PrivateKey.
Record t : Type := Build { ZeroHash : list Block; OneHash : list Block }.
End PrivateKey.

Record Signature : Type := { Preimage : list Block }.

(** Go's zero values: [Block{}], [Message{}], [[MESSAGE_BITS]Block{}]. *)
Definition Block_zero : Block := replicate MESSAGE_BYTES 0%Z.
Definition Message_zero : Message := replicate MESSAGE_BYTES 0%Z.
Definition Blocks_zero : list Block := replicate MESSAGE_BITS Block_zero.

(** The values of the Go types among the lists. *)
Definition wf_Block (b : Block) : Prop :=
  length b = MESSAGE_BYTES /\ Forall is_byte b.
Definition wf_Message (m : Message) : Prop :=
  length m = MESSAGE_BYTES /\ Forall is_byte m.

(** The canonical bit indexing, [arr[i/8]>>(7-(i%8)))&0x01] (forge.go, lines
    35, 48, 217 and 229). *)
Definition BitAt (arr : list Z) (i : nat) : Z :=
  Z.land (shr8 (arr !!! (i / 8)%nat) (7 - i mod 8)) 1.

(** Go's built-in [copy(dst, src)]: the first [min(len(dst), len(src))]
    elements of [dst] are overwritten. *)
Definition copy {A} (dst src : list A) : list A :=
  let n := length dst `min` length src in
  take n src ++ drop n dst.

(** main.go, lines 20-24. *)
Definition BlockFromByteSlice (by_ : list Z) : Block :=
  let bl := Block_zero in
  let bl := copy bl by_ in
  bl.

(** The bytes of a Go string, [[]byte(s)]. *)
Definition bytes_of_string (s : string) : list Z :=
  map (fun b => Z.of_N (Byte.to_N b)) (list_byte_of_string s).

(** The state of the coverage loop of [Forge] (forge.go, lines 120-123): two
    256-bit bitmaps and the preimages collected for each half. *)
Record Coverage : Type := {
  zeroUsed : Message;
  oneUsed : Message;
  zeroUsedSigs : list Block;
  oneUsedSigs : list Block
}.

Definition Coverage_init : Coverage :=
  {| zeroUsed := Message_zero; oneUsed := Message_zero;
     zeroUsedSigs := Blocks_zero; oneUsedSigs := Blocks_zero |}.

(** ** Sample values

    The theorems below hold for every function in the place of
    [sha256.Sum256]; the examples are evaluated with this checksum, which
    maps any byte string to 32 bytes. *)

Definition checksum256 (data : list Z) : Block :=
  let sum := fold_left (fun acc b => (acc * 33 + b) mod 256)%Z data 7%Z in
  map (fun k => (sum + 5 * Z.of_nat k) mod 256)%Z (seq 0 MESSAGE_BYTES).

(** A private key with 512 different blocks. *)
Definition sample_pri : PrivateKey.t :=
  PrivateKey.Build
    (map (fun k => Z.of_nat k :: replicate 31 0%Z) (seq 0 MESSAGE_BITS))
    (map (fun k => Z.of_nat k :: replicate 31 1%Z) (seq 0 MESSAGE_BITS)).

(** Go's zero value [PrivateKey{}], which [GenerateKey] returns next to an
    error: its two halves are equal. *)
Definition zero_pri : PrivateKey.t := PrivateKey.Build Blocks_zero Blocks_zero.

(** Three messages: bytes [a5 00 ..], [80 00 ..] and [25 00 ..]. *)
Definition sample_m1 : Message := 165%Z :: replicate 31 0%Z.
Definition sample_m2 : Message := 128%Z :: replicate 31 0%Z.
Definition sample_m3 : Message := 37%Z :: replicate 31 0%Z.

(** A coverage state: the bitmaps that the signatures of [sample_m1] and
    [sample_m2] leave, with empty caches. *)
Definition sample_cov : Coverage :=
  {| zeroUsed := 127%Z :: replicate 31 255%Z;
     oneUsed := 165%Z :: replicate 31 0%Z;
     zeroUsedSigs := Blocks_zero;
     oneUsedSigs := Blocks_zero |}.

(** ** Errors, buffers and panics

    The rest of the two files: the hex decoders, the key generation and the
    body of [Forge].  What they write to standard output ([fmt.Println],
    [fmt.Printf]) is not modelled; their results, errors and panics are. *)

(** The [error] values the program meets: the one it builds itself with
    [fmt.Errorf], and those of [encoding/hex] and [crypto/rand]. *)
Inductive error : Type :=
| Errorf (format : string) (args : list Z)
| ErrLength
| InvalidByteError (b : ascii)
| ReadError (msg : string).

(** [bytes.Buffer.Next(n)]: the next [n] unread bytes, or all that is left
    when fewer than [n] are; they count as read afterwards.  The buffer is
    its list of unread bytes. *)
Definition Buffer_Next (n : nat) (buf : list Z) : list Z * list Z :=
  (take n buf, drop n buf).

(** What a call of [Forge] comes to: a panic with its value, a returned
    triple (the error in it is always [nil]), or a search that has not met a
    forgeable candidate among the results received so far. *)
Inductive panic_value : Type :=
| panic_error (e : error)
| panic_string (s : string).

Inductive Forge_outcome : Type :=
| Panics (v : panic_value)
| Returns (result : string) (forgeSig : Signature)
| Searching.

(** [fmt.Sprintf("zlian forge %d", i)] (forge.go, line 200). *)
Definition candidate (i : Z) : string :=
  String.append "zlian forge " (NilZero.string_of_int (Z.to_int i)).

(** *** Sample values for the decoders and the key generation

    [encoding/hex] on strings, as the examples use it: [hex_DecodeString]
    follows [hex.DecodeString], which returns the bytes decoded before the
    first error together with that error. *)

Definition fromHexChar (c : ascii) : option Z :=
  let n := Z.of_nat (nat_of_ascii c) in
  if (48 <=? n)%Z && (n <=? 57)%Z then Some (n - 48)%Z
  else if (97 <=? n)%Z && (n <=? 102)%Z then Some (n - 87)%Z
  else if (65 <=? n)%Z && (n <=? 70)%Z then Some (n - 55)%Z
  else None.

Fixpoint hex_Decode (src : list ascii) : list Z * option error :=
  match src with
  | [] => ([], None)
  | [p] =>
      match fromHexChar p with
      | None => ([], Some (InvalidByteError p))
      | Some _ => ([], Some ErrLength)
      end
  | p :: q :: rest =>
      match fromHexChar p, fromHexChar q with
      | None, _ => ([], Some (InvalidByteError p))
      | Some _, None => ([], Some (InvalidByteError q))
      | Some a, Some b =>
          let '(bts, err) := hex_Decode rest in
          ((a * 16 + b)%Z :: bts, err)
      end
  end.

Definition hex_DecodeString (s : string) : list Z * option error :=
  hex_Decode (list_ascii_of_string s).

Definition toHexChar (n : Z) : ascii :=
  ascii_of_nat (Z.to_nat (if (n <? 10)%Z then n + 48 else n + 87)%Z).

Definition hex_EncodeToString (bts : list Z) : string :=
  string_of_list_ascii
    (bts ≫= (fun b => [toHexChar (b / 16)%Z; toHexChar (b mod 16)%Z])).

(** The hex form of a key and of a signature: all blocks of the zero row,
    then all blocks of the one row. *)
Definition sample_hexPubkey (pub : PublicKey.t) : string :=
  hex_EncodeToString (concat (PublicKey.ZeroHash pub) ++ concat (PublicKey.OneHash pub)).
Definition sample_hexSignature (sig : Signature) : string :=
  hex_EncodeToString (concat (Preimage sig)).

(** A source of random bytes: a counter; the read number [n] fills the
    buffer with bytes computed from [n].  The failing source gives up at its
    300th read. *)
Definition sample_Read (block : list Z) (w : nat) : list Z * option error * nat :=
  (map (fun k => Z.of_nat ((w * 37 + k * 11 + 5) mod 256)) (seq 0 (length block)), None, S w).

Definition failing_Read (block : list Z) (w : nat) : list Z * option error * nat :=
  if w =? 300 then (block, Some (ReadError "unavailable"), S w)
  else sample_Read block w.

(** Two messages that between them have every bit both ways. *)
Definition sample_zeros : Message := replicate 32 0%Z.
Definition sample_ones : Message := replicate 32 255%Z.

Section Scheme.

(** [sha256.Sum256], from Go's standard library. *)
Variable Sum256 : list Z -> Block.

(** main.go, lines 13-15. *)
Definition GetMessageFromString (s : string) : Message :=
  Sum256 (bytes_of_string s).

(** main.go, lines 90-92. *)
Definition Hash (self : Block) : Block := Sum256 self.

(** main.go, lines 104-114. *)
Definition GetPublicKey (self : PrivateKey.t) : PublicKey.t :=
  let pub := PublicKey.Build Blocks_zero Blocks_zero in
  returns
    (match
       for_range 0 (PrivateKey.ZeroHash self) (fun i block pub =>
         Continue (PublicKey.Build (<[i := Hash block]> (PublicKey.ZeroHash pub))
                                   (PublicKey.OneHash pub))) pub
     with
     | Continue pub =>
         for_range 0 (PrivateKey.OneHash self) (fun i block pub =>
           Continue (PublicKey.Build (PublicKey.ZeroHash pub)
                                     (<[i := Hash block]> (PublicKey.OneHash pub)))) pub
     | Break r => Break r
     end)
    (fun pub => pub).

(** main.go, lines 173-188. *)
Definition Sign (msg : Message) (pri : PrivateKey.t) : Signature :=
  let sig := {| Preimage := Blocks_zero |} in
  returns
    (for_range 0 msg (fun i b sig =>
       for_lt 8 (fun j sig =>
         let bit := Z.land (shr8 b (7 - j)) 1 in
         if (bit =? 0)%Z then
           Continue {| Preimage := <[i * 8 + j := PrivateKey.ZeroHash pri !!! (i * 8 + j)]> (Preimage sig) |}
         else
           Continue {| Preimage := <[i * 8 + j := PrivateKey.OneHash pri !!! (i * 8 + j)]> (Preimage sig) |})
       sig) sig)
    (fun sig => sig).

(** main.go, lines 192-209.  The loops carry no state: [u] is the unit. *)
Definition Verify (msg : Message) (pub : PublicKey.t) (sig : Signature) : bool :=
  returns
    (for_range 0 msg (fun i b (u : unit) =>
       for_lt 8 (fun j u =>
         let bit := Z.land (shr8 b (7 - j)) 1 in
         if (bit =? 0)%Z then
           if bool_decide (Hash (Preimage sig !!! (i * 8 + j)) <> PublicKey.ZeroHash pub !!! (i * 8 + j))
           then Break false else Continue u
         else
           if bool_decide (Hash (Preimage sig !!! (i * 8 + j)) <> PublicKey.OneHash pub !!! (i * 8 + j))
           then Break false else Continue u)
       u) tt)
    (fun _ => true).

(** One iteration of the inner coverage loop (forge.go, lines 126-135);
    [panic("no match")] leaves [Forge] with the panic value. *)
Definition cover_block (pub : PublicKey.t) (i : nat) (block : Block)
    (cov : Coverage) : ctl string Coverage :=
  let hash := Hash block in
  if bool_decide (PublicKey.ZeroHash pub !!! i = hash) then
    Continue
      {| zeroUsed := <[(i / 8)%nat := Z.lor (zeroUsed cov !!! (i / 8)%nat) (shl8 1 (7 - i mod 8))]> (zeroUsed cov);
         zeroUsedSigs := <[i := block]> (zeroUsedSigs cov);
         oneUsed := oneUsed cov;
         oneUsedSigs := oneUsedSigs cov |}
  else if bool_decide (PublicKey.OneHash pub !!! i = hash) then
    Continue
      {| zeroUsed := zeroUsed cov;
         zeroUsedSigs := zeroUsedSigs cov;
         oneUsed := <[(i / 8)%nat := Z.lor (oneUsed cov !!! (i / 8)%nat) (shl8 1 (7 - i mod 8))]> (oneUsed cov);
         oneUsedSigs := <[i := block]> (oneUsedSigs cov) |}
  else Break "no match"%string.

(** The loops of forge.go, lines 124-137, from a given coverage state. *)
Definition cover_sigs (pub : PublicKey.t) (sigslice : list Signature)
    (cov : Coverage) : ctl string Coverage :=
  for_range 0 sigslice (fun _ sig cov =>
    for_range 0 (Preimage sig) (fun i block cov => cover_block pub i block cov) cov)
  cov.

(** The coverage tracker (forge.go, lines 120-137). *)
Definition BuildCoverage (pub : PublicKey.t) (sigslice : list Signature)
    : ctl string Coverage :=
  cover_sigs pub sigslice Coverage_init.

(** The difficulty estimate (forge.go, lines 139-148).  [difficulty] is a Go
    [int]; it never exceeds 256, so it is an unbounded integer here. *)
Definition EstimateDifficulty (cov : Coverage) : Z :=
  let difficulty := 0%Z in
  returns
    (for_range 0 (zeroUsed cov) (fun i _ difficulty =>
       let allTaken := Z.land (zeroUsed cov !!! i) (oneUsed cov !!! i) in
       for_lt 8 (fun j difficulty =>
         let bit := Z.land (shr8 allTaken (7 - j)) 1 in
         if (bit =? 0)%Z then Continue (difficulty + 1)%Z
         else Continue difficulty)
       difficulty) difficulty)
    (fun difficulty => difficulty).

(** The loop of the closure [isForgeable] (forge.go, lines 180-190) on the
    digest [forgeMsg]; it leaves with the string sent to [output]. *)
Definition isForgeable_scan (zeroUsed oneUsed forgeMsg : Message)
    : ctl string Message :=
  let forgeable := Message_zero in
  for_range 0 forgeMsg (fun i block forgeable =>
    let forgeable := <[i := Z.land block (oneUsed !!! i)]> forgeable in
    let forgeable :=
      <[i := Z.lor (forgeable !!! i) (Z.land (not8 block) (zeroUsed !!! i))]> forgeable in
    if bool_decide (forgeable !!! i <> 255%Z) then Break ""%string
    else Continue forgeable)
  forgeable.

(** The closure [isForgeable] (forge.go, lines 178-193); the result is
    the one string it sends to [output]. *)
Definition isForgeable (zeroUsed oneUsed : Message) (msgString : string)
    : string :=
  let forgeMsg := GetMessageFromString msgString in
  returns (isForgeable_scan zeroUsed oneUsed forgeMsg) (fun _ => msgString).

(** The forgeability predicate on a digest: the scan reaches line 192. *)
Definition IsForgeable (m : Message) (cov : Coverage) : bool :=
  match isForgeable_scan (zeroUsed cov) (oneUsed cov) m with
  | Continue _ => true
  | Break _ => false
  end.

(** The assembly of the forged signature (forge.go, lines 215-223). *)
Definition forgeSig (message : Message) (cov : Coverage) : Signature :=
  let forgeSig := {| Preimage := Blocks_zero |} in
  returns
    (for_lt 256 (fun i forgeSig =>
       let bit := Z.land (shr8 (message !!! (i / 8)%nat) (7 - i mod 8)) 1 in
       if (bit =? 0)%Z then
         Continue {| Preimage := <[i := zeroUsedSigs cov !!! i]> (Preimage forgeSig) |}
       else
         Continue {| Preimage := <[i := oneUsedSigs cov !!! i]> (Preimage forgeSig) |})
     forgeSig)
    (fun forgeSig => forgeSig).


(** ** Specification vocabulary *)

(** What a loop establishes: [I] of the state it falls through with, [Q] of
    the value it leaves the function with. *)
Definition outcome {R St} (c : ctl R St) (I : St -> Prop) (Q : R -> Prop) : Prop :=
  match c with
  | Continue s => I s
  | Break r => Q r
  end.

(** The iterations of [for i, b := range msg { for j := 0; j < 8; j++ {..} }]:
    byte index, byte, bit offset. *)
Definition bit_items (msg : Message) : list (nat * Z * nat) :=
  indexed 0 msg ≫= (fun p => (fun j => (p.1, p.2, j)) <$> seq 0 8).

(** The block that bit [k] of [m] selects: from [zero] when the bit is 0,
    from [one] when it is 1. *)
Definition selected (m : Message) (zero one : list Block) (k : nat) : Block :=
  if (BitAt m k =? 0)%Z then zero !!! k else one !!! k.

Definition wf_PrivateKey (pri : PrivateKey.t) : Prop :=
  length (PrivateKey.ZeroHash pri) = MESSAGE_BITS /\
  length (PrivateKey.OneHash pri) = MESSAGE_BITS.

(** [pub] is the public key of [pri]: each public block is the hash of the
    private block at the same place. *)
Definition derived (pri : PrivateKey.t) (pub : PublicKey.t) : Prop :=
  forall i, i < MESSAGE_BITS ->
    PublicKey.ZeroHash pub !!! i = Hash (PrivateKey.ZeroHash pri !!! i) /\
    PublicKey.OneHash pub !!! i = Hash (PrivateKey.OneHash pri !!! i).

(** The iterations of the coverage loops (forge.go, lines 124-125): block
    index and block, signature after signature. *)
Definition block_items (sigslice : list Signature) : list (nat * Block) :=
  sigslice ≫= (fun sig => indexed 0 (Preimage sig)).

(** How [cover_block] classifies a block at an index: first against the zero
    half of the public key, and only if that fails against the one half. *)
Definition hits_zero (pub : PublicKey.t) (x : nat * Block) : Prop :=
  PublicKey.ZeroHash pub !!! x.1 = Hash x.2.
Definition hits_one (pub : PublicKey.t) (x : nat * Block) : Prop :=
  PublicKey.ZeroHash pub !!! x.1 <> Hash x.2 /\
  PublicKey.OneHash pub !!! x.1 = Hash x.2.
Definition hits_none (pub : PublicKey.t) (x : nat * Block) : Prop :=
  PublicKey.ZeroHash pub !!! x.1 <> Hash x.2 /\
  PublicKey.OneHash pub !!! x.1 <> Hash x.2.

(** A bitmap and its cache agree with the blocks [pre] classified as [hit]:
    bit [k] is set exactly when such a block was seen at index [k], and then
    the cache holds one of them. *)
Definition tracks (hit : nat * Block -> Prop) (pre : list (nat * Block))
    (used : Message) (cache : list Block) : Prop :=
  length used = MESSAGE_BYTES /\ length cache = MESSAGE_BITS /\
  forall k, k < MESSAGE_BITS ->
    (BitAt used k = 1%Z <-> exists b, (k, b) ∈ pre /\ hit (k, b)) /\
    (BitAt used k = 1%Z -> (k, cache !!! k) ∈ pre /\ hit (k, cache !!! k)).

(** The invariant of the coverage loops. *)
Definition coverage_inv (pub : PublicKey.t) (pre : list (nat * Block))
    (cov : Coverage) : Prop :=
  (forall x, x ∈ pre -> hits_zero pub x \/ hits_one pub x) /\
  tracks (hits_zero pub) pre (zeroUsed cov) (zeroUsedSigs cov) /\
  tracks (hits_one pub) pre (oneUsed cov) (oneUsedSigs cov).

(** The forgeability predicate as the specification words it, bit by bit:
    the bitmap bit matching message bit [k] is set, [zeroUsed] when the bit
    is 0 and [oneUsed] when it is 1. *)
Definition bit_covered (m zeroUsed oneUsed : Message) (k : nat) : bool :=
  if (BitAt m k =? 0)%Z then (BitAt zeroUsed k =? 1)%Z
  else (BitAt oneUsed k =? 1)%Z.

Definition IsForgeable_per_bit (m : Message) (cov : Coverage) : bool :=
  forallb (bit_covered m (zeroUsed cov) (oneUsed cov)) (seq 0 MESSAGE_BITS).

(** The test of one byte position, as the specification words it:
    [(messageByte AND oneUsedByte) OR (NOT messageByte AND zeroUsedByte)]. *)
Definition byte_test (m zeroUsed oneUsed : Message) (i : nat) : Z :=
  Z.lor (Z.land (m !!! i) (oneUsed !!! i))
        (Z.land (not8 (m !!! i)) (zeroUsed !!! i)).

Definition IsForgeable_per_byte (m : Message) (cov : Coverage) : bool :=
  forallb (fun i => (byte_test m (zeroUsed cov) (oneUsed cov) i =? 255)%Z)
          (seq 0 MESSAGE_BYTES).

(** A block is a cached preimage for bit index [k] when a bitmap records a
    preimage at [k] and the block is the one cached for it. *)
Definition cached (cov : Coverage) (k : nat) (b : Block) : Prop :=
  (BitAt (zeroUsed cov) k = 1%Z /\ b = zeroUsedSigs cov !!! k) \/
  (BitAt (oneUsed cov) k = 1%Z /\ b = oneUsedSigs cov !!! k).

(** The two halves of a public key differ at every bit index. *)
Definition distinct_halves (pub : PublicKey.t) : Prop :=
  forall k, k < MESSAGE_BITS ->
    PublicKey.ZeroHash pub !!! k <> PublicKey.OneHash pub !!! k.

(** The difficulty as the specification words it: the number of bit
    positions that are not covered on both sides. *)
Definition uncovered (cov : Coverage) (k : nat) : bool :=
  negb ((BitAt (zeroUsed cov) k =? 1)%Z && (BitAt (oneUsed cov) k =? 1)%Z).

Definition count_uncovered (cov : Coverage) : Z :=
  Z.of_nat (length (List.filter (uncovered cov) (seq 0 MESSAGE_BITS))).

(** Executable forms of the well-formedness conditions, for checking them on
    concrete values. *)
Definition wf_Messageb (m : Message) : bool :=
  (length m =? MESSAGE_BYTES) && forallb (fun b => (0 <=? b)%Z && (b <? 256)%Z) m.

Definition derivedb (pri : PrivateKey.t) (pub : PublicKey.t) : bool :=
  forallb (fun i =>
    bool_decide (PublicKey.ZeroHash pub !!! i = Hash (PrivateKey.ZeroHash pri !!! i)) &&
    bool_decide (PublicKey.OneHash pub !!! i = Hash (PrivateKey.OneHash pri !!! i)))
    (seq 0 MESSAGE_BITS).

Definition distinct_halvesb (pub : PublicKey.t) : bool :=
  forallb (fun k =>
    negb (bool_decide (PublicKey.ZeroHash pub !!! k = PublicKey.OneHash pub !!! k)))
    (seq 0 MESSAGE_BITS).

(** ** The hex decoders (main.go, lines 26-82) *)

(** [hex.DecodeString], from Go's standard library: the decoded bytes and
    the error. *)
Variable DecodeString : string -> list Z * option error.

(** main.go, lines 28-55. *)
Definition HexToPubkey (s : string) : PublicKey.t * option error :=
  let p := PublicKey.Build Blocks_zero Blocks_zero in
  let expectedLength := (256 * 2 * 64)%Z in
  if negb (Z.of_nat (String.length s) =? expectedLength)%Z then
    (p, Some (Errorf "Pubkey string %d characters, expect %d"
                [Z.of_nat (String.length s); expectedLength]))
  else
    let '(bts, err) := DecodeString s in
    match err with
    | Some e => (p, Some e)
    | None =>
        let buf := bts in
        returns
          (match
             for_range 0 (PublicKey.ZeroHash p) (fun i _ '(p, buf) =>
               let '(next, buf) := Buffer_Next 32 buf in
               Continue (PublicKey.Build
                           (<[i := BlockFromByteSlice next]> (PublicKey.ZeroHash p))
                           (PublicKey.OneHash p), buf)) (p, buf)
           with
           | Continue st =>
               for_range 0 (PublicKey.OneHash st.1) (fun i _ '(p, buf) =>
                 let '(next, buf) := Buffer_Next 32 buf in
                 Continue (PublicKey.Build
                             (PublicKey.ZeroHash p)
                             (<[i := BlockFromByteSlice next]> (PublicKey.OneHash p)), buf)) st
           | Break r => Break r
           end)
          (fun st => (st.1, None))
    end.

(** main.go, lines 59-82. *)
Definition HexToSignature (s : string) : Signature * option error :=
  let sig := {| Preimage := Blocks_zero |} in
  let expectedLength := (256 * 64)%Z in
  if negb (Z.of_nat (String.length s) =? expectedLength)%Z then
    (sig, Some (Errorf "Pubkey string %d characters, expect %d"
                  [Z.of_nat (String.length s); expectedLength]))
  else
    let '(bts, err) := DecodeString s in
    match err with
    | Some e => (sig, Some e)
    | None =>
        let buf := bts in
        returns
          (for_range 0 (Preimage sig) (fun i _ '(sig, buf) =>
             let '(next, buf) := Buffer_Next 32 buf in
             Continue ({| Preimage := <[i := BlockFromByteSlice next]> (Preimage sig) |}, buf))
             (sig, buf))
          (fun st => (st.1, None))
    end.

(** ** Key generation (main.go, lines 136-170) *)

(** [crypto/rand.Read], from Go's standard library, on the state of the
    operating system's random source: the buffer as the call leaves it, the
    error, and the state afterwards. *)
Variable World : Type.
Variable rand_Read : list Z -> World -> list Z * option error * World.

(** main.go, lines 136-150. *)
Definition ReadHash (w : World) : list Block * option error * World :=
  let hash := Blocks_zero in
  returns
    (for_lt MESSAGE_BITS (fun i '(hash, w) =>
       let block := replicate MESSAGE_BYTES 0%Z in
       let '(block, err, w) := rand_Read block w in
       match err with
       | Some e => Break (Blocks_zero, Some e, w)
       | None => Continue (<[i := BlockFromByteSlice block]> hash, w)
       end) (hash, w))
    (fun st => (st.1, None, st.2)).

(** main.go, lines 155-170. *)
Definition GenerateKey (w : World)
    : PrivateKey.t * PublicKey.t * option error * World :=
  let pri := PrivateKey.Build Blocks_zero Blocks_zero in
  let '(hash, err, w) := ReadHash w in
  let pri := PrivateKey.Build hash (PrivateKey.OneHash pri) in
  match err with
  | Some e =>
      (PrivateKey.Build Blocks_zero Blocks_zero,
       PublicKey.Build Blocks_zero Blocks_zero, Some e, w)
  | None =>
      let '(hash, err, w) := ReadHash w in
      let pri := PrivateKey.Build (PrivateKey.ZeroHash pri) hash in
      match err with
      | Some e =>
          (PrivateKey.Build Blocks_zero Blocks_zero,
           PublicKey.Build Blocks_zero Blocks_zero, Some e, w)
      | None =>
          let pub := GetPublicKey pri in
          (pri, pub, None, w)
      end
  end.

(** The reads [ReadHash] asks for, as a recursion: up to [n] reads of a
    zeroed 32-byte buffer, stopping at the first that fails. *)
Fixpoint reads (n : nat) (w : World) : list (list Z) * option error * World :=
  match n with
  | O => ([], None, w)
  | S n' =>
      let '(block, err, w) := rand_Read (replicate MESSAGE_BYTES 0%Z) w in
      match err with
      | Some e => ([], Some e, w)
      | None =>
          let '(blocks, err, w) := reads n' w in
          (block :: blocks, err, w)
      end
  end.

(** ** [Forge] (forge.go, lines 82-226) *)

(** The constants of signatures.go. *)
Variable hexPubkey1 : string.
Variable hexSignature1 hexSignature2 hexSignature3 hexSignature4 : string.

(** The loop that consumes the channel (forge.go, lines 206-225), on the
    results received so far: empty results are skipped, the first other one
    is returned with the signature assembled for its digest. *)
Definition Forge_consume (cov : Coverage) (received : list string) : Forge_outcome :=
  returns
    (for_range 0 received (fun _ result (u : unit) =>
       if String.eqb result "" then Continue u
       else
         let message := GetMessageFromString result in
         Break (Returns result (forgeSig message cov))) tt)
    (fun _ => Searching).

(** [Forge].  The goroutines that test the candidates send one string each
    to the channel [q], in no fixed order; [arrivals] lists the counters [i]
    of the candidates in the order in which their results are received. *)
Definition Forge (arrivals : list Z) : Forge_outcome :=
  let '(pub, err) := HexToPubkey hexPubkey1 in
  match err with
  | Some e => Panics (panic_error e)
  | None =>
  let '(sig1, err) := HexToSignature hexSignature1 in
  match err with
  | Some e => Panics (panic_error e)
  | None =>
  let '(sig2, err) := HexToSignature hexSignature2 in
  match err with
  | Some e => Panics (panic_error e)
  | None =>
  let '(sig3, err) := HexToSignature hexSignature3 in
  match err with
  | Some e => Panics (panic_error e)
  | None =>
  let '(sig4, err) := HexToSignature hexSignature4 in
  match err with
  | Some e => Panics (panic_error e)
  | None =>
  let sigslice := [sig1; sig2; sig3; sig4] in
  match BuildCoverage pub sigslice with
  | Break msg => Panics (panic_string msg)
  | Continue cov =>
      let received :=
        (fun i => isForgeable (zeroUsed cov) (oneUsed cov) (candidate i)) <$> arrivals in
      Forge_consume cov received
  end end end end end end.

(** The hash function returns 32 bytes, as [sha256.Sum256] does by its
    type. *)
Definition wf_Sum256 : Prop := forall data, wf_Message (Sum256 data).

(** The bytes of a key and of a signature in the order of their hex form. *)
Definition PublicKey_bytes (pub : PublicKey.t) : list Z :=
  concat (PublicKey.ZeroHash pub) ++ concat (PublicKey.OneHash pub).

Definition wf_blocks (blocks : list Block) : Prop :=
  length blocks = MESSAGE_BITS /\ Forall (fun b => length b = MESSAGE_BYTES) blocks.

Definition wf_PublicKey (pub : PublicKey.t) : Prop :=
  wf_blocks (PublicKey.ZeroHash pub) /\ wf_blocks (PublicKey.OneHash pub).

Definition wf_Signature (sig : Signature) : Prop := wf_blocks (Preimage sig).

(** The errors of the decoders for a string of the wrong length. *)
Definition length_error (s : string) (expectedLength : Z) : error :=
  Errorf "Pubkey string %d characters, expect %d"
    [Z.of_nat (String.length s); expectedLength].

(** The inputs of [Forge] are good: the key and the four signatures decode,
    and every block of the signatures hashes to one of the two public blocks
    at its index. *)
Definition Forge_inputs_ok : Prop :=
  exists pub sig1 sig2 sig3 sig4,
    HexToPubkey hexPubkey1 = (pub, None) /\
    HexToSignature hexSignature1 = (sig1, None) /\
    HexToSignature hexSignature2 = (sig2, None) /\
    HexToSignature hexSignature3 = (sig3, None) /\
    HexToSignature hexSignature4 = (sig4, None) /\
    forall sig i block,
      sig ∈ [sig1; sig2; sig3; sig4] -> Preimage sig !! i = Some block ->
      Hash block = PublicKey.ZeroHash pub !!! i \/
      Hash block = PublicKey.OneHash pub !!! i.

(** The candidates that pass the forgeability predicate. *)
Definition forgeable_candidate (cov : Coverage) (i : Z) : bool :=
  IsForgeable (GetMessageFromString (candidate i)) cov.

(** A key pair, four signatures under it and their hex forms, for the
    examples. *)
Definition sample_pub : PublicKey.t :=
  PublicKey.Build (checksum256 <$> PrivateKey.ZeroHash sample_pri)
                  (checksum256 <$> PrivateKey.OneHash sample_pri).
Definition sample_sig1 : Signature := Sign sample_zeros sample_pri.
Definition sample_sig2 : Signature := Sign sample_ones sample_pri.
Definition sample_sig3 : Signature := Sign sample_m1 sample_pri.
Definition sample_sig4 : Signature := Sign sample_m2 sample_pri.

Definition sample_hexPubkey1 : string := sample_hexPubkey sample_pub.
Definition sample_hexSignature1 : string := sample_hexSignature sample_sig1.
Definition sample_hexSignature2 : string := sample_hexSignature sample_sig2.
Definition sample_hexSignature3 : string := sample_hexSignature sample_sig3.
Definition sample_hexSignature4 : string := sample_hexSignature sample_sig4.

(** Executable forms of the conditions on decoded values. *)
Definition wf_blocksb (blocks : list Block) : bool :=
  (length blocks =? MESSAGE_BITS) && forallb (fun b => length b =? MESSAGE_BYTES) blocks.

Definition decodes_tob (r : list Z * option error) (bts : list Z) : bool :=
  bool_decide (r.1 = bts) && match r.2 with None => true | Some _ => false end.

(** Bit indices are split with [/] and [mod]; keep them folded. *)
#[local] Arguments Nat.div : simpl never.
#[local] Arguments Nat.modulo : simpl never.

(** The array sizes as numerals, for [lia]. *)
Ltac sizes :=
  change MESSAGE_BYTES with 32 in *; change MESSAGE_BITS with 256 in *.

(** ** Loops as runs over their iterations *)

Lemma run_app {X R St} (step : X -> St -> ctl R St) xs ys s :
  run step (xs ++ ys) s =
  match run step xs s with
  | Continue s' => run step ys s'
  | Break r => Break r
  end.
Proof.
  revert s; induction xs as [|x xs IH]; intros s; simpl; [done|].
  destruct (step x s); auto.
Qed.

Lemma run_ext {X R St} (f g : X -> St -> ctl R St) xs s :
  (forall x s', x ∈ xs -> f x s' = g x s') -> run f xs s = run g xs s.
Proof.
  revert s; induction xs as [|x xs IH]; intros s Hfg; simpl; [done|].
  rewrite Hfg by constructor.
  destruct (g x s); [|done].
  apply IH. intros y s' Hy. apply Hfg. by constructor.
Qed.

Lemma run_bind {X Y R St} (step : Y -> St -> ctl R St) (f : X -> list Y) xs s :
  run (fun x s' => run step (f x) s') xs s = run step (xs ≫= f) s.
Proof.
  revert s; induction xs as [|x xs IH]; intros s; simpl; [done|].
  rewrite run_app. destruct (run step (f x) s); auto.
Qed.

Lemma for_range_run {A R St} i (l : list A) (body : nat -> A -> St -> ctl R St) s :
  for_range i l body s = run (fun p => body p.1 p.2) (indexed i l) s.
Proof.
  revert i s; induction l as [|x l IH]; intros i s; simpl; [done|].
  destruct (body i x s); auto.
Qed.

Lemma for_count_run {R St} i n (body : nat -> St -> ctl R St) s :
  for_count i n body s = run body (seq i n) s.
Proof.
  revert i s; induction n as [|n IH]; intros i s; simpl; [done|].
  destruct (body i s); auto.
Qed.

Lemma for_lt_run {R St} n (body : nat -> St -> ctl R St) s :
  for_lt n body s = run body (seq 0 n) s.
Proof. apply for_count_run. Qed.

Lemma elem_of_indexed {A} i (l : list A) k x :
  (k, x) ∈ indexed i l <-> i <= k /\ l !! (k - i) = Some x.
Proof.
  revert i; induction l as [|y l IH]; intros i; simpl.
  - rewrite elem_of_nil, lookup_nil. split; [done | by intros [_ ?]].
  - rewrite elem_of_cons, IH. split.
    + intros [Heq|[Hle Hk]]; [injection Heq as -> ->|].
      * split; [lia|]. by rewrite Nat.sub_diag.
      * split; [lia|]. by replace (k - i) with (S (k - S i)) by lia.
    + intros [Hle Hk]. destruct (decide (k = i)) as [->|Hne].
      * left. rewrite Nat.sub_diag in Hk. simpl in Hk. congruence.
      * right. split; [lia|]. by replace (k - i) with (S (k - S i)) in Hk by lia.
Qed.

(** The invariant rule: [I] holds of the iterations done so far and the state
    they produced; a body that leaves the function establishes [Q]. *)
Lemma run_inv {X R St} (step : X -> St -> ctl R St)
    (I : list X -> St -> Prop) (Q : R -> Prop) xs s0 :
  I [] s0 ->
  (forall pre x post s, xs = pre ++ x :: post -> I pre s ->
     match step x s with
     | Continue s' => I (pre ++ [x]) s'
     | Break r => Q r
     end) ->
  match run step xs s0 with
  | Continue s' => I xs s'
  | Break r => Q r
  end.
Proof.
  intros H0 Hstep.
  cut (forall rest pre s, xs = pre ++ rest -> I pre s ->
         match run step rest s with
         | Continue s' => I xs s'
         | Break r => Q r
         end).
  { intros Hgen. by apply (Hgen xs [] s0). }
  induction rest as [|x rest IH]; intros pre s Hxs HI; simpl.
  - by rewrite Hxs, app_nil_r.
  - specialize (Hstep pre x rest s Hxs HI).
    destruct (step x s) as [s'|r]; [|done].
    apply (IH (pre ++ [x])); [|done].
    by rewrite <- app_assoc.
Qed.


Lemma run_outcome {X R St} (step : X -> St -> ctl R St)
    (I : list X -> St -> Prop) (Q : R -> Prop) xs s0 :
  I [] s0 ->
  (forall pre x post s, xs = pre ++ x :: post -> I pre s ->
     outcome (step x s) (I (pre ++ [x])) Q) ->
  outcome (run step xs s0) (I xs) Q.
Proof. apply run_inv. Qed.

(** A function that ends in [return k s] after a loop: what holds of the
    state after the loop, and of the values returned from inside it, holds of
    the result. *)
Lemma returns_outcome {R St} (c : ctl R St) (k : St -> R) I Q (P : R -> Prop) :
  outcome c I Q ->
  (forall s, I s -> P (k s)) ->
  (forall r, Q r -> P r) ->
  P (returns c k).
Proof. destruct c; simpl; auto. Qed.

Lemma run_fmap {X Y R St} (step : Y -> St -> ctl R St) (f : X -> Y) xs s :
  run step (f <$> xs) s = run (fun x => step (f x)) xs s.
Proof.
  revert s; induction xs as [|x xs IH]; intros s; simpl; [done|].
  destruct (step (f x) s); auto.
Qed.

Lemma bits_loop_run {R St} (body : nat -> Z -> nat -> St -> ctl R St) msg s :
  for_range 0 msg (fun i b s' => for_lt 8 (fun j s'' => body i b j s'') s') s =
  run (fun x => body x.1.1 x.1.2 x.2) (bit_items msg) s.
Proof.
  rewrite for_range_run. unfold bit_items. rewrite <- run_bind.
  apply run_ext. intros [i b] s' _.
  rewrite for_lt_run, run_fmap. reflexivity.
Qed.

(** ** Bits of bytes *)

Lemma land_shr8_1 b n : Z.land (shr8 b n) 1 = Z.b2z (Z.testbit b (Z.of_nat n)).
Proof.
  unfold shr8. change 1%Z with (Z.ones 1). rewrite Z.land_ones by lia.
  change (2 ^ 1)%Z with 2%Z. rewrite <- Z.bit0_mod.
  rewrite Z.shiftr_spec by lia. reflexivity.
Qed.

Lemma BitAt_testbit arr i :
  BitAt arr i = Z.b2z (Z.testbit (arr !!! (i / 8)%nat) (Z.of_nat (7 - i mod 8))).
Proof. apply land_shr8_1. Qed.

Lemma BitAt_cases arr i : BitAt arr i = 0%Z \/ BitAt arr i = 1%Z.
Proof. rewrite BitAt_testbit. destruct (Z.testbit _ _); auto. Qed.

Lemma BitAt_1_iff arr i :
  BitAt arr i = 1%Z <-> Z.testbit (arr !!! (i / 8)%nat) (Z.of_nat (7 - i mod 8)) = true.
Proof. rewrite BitAt_testbit. destruct (Z.testbit _ _); simpl; split; congruence. Qed.

Lemma BitAt_0_iff arr i :
  BitAt arr i = 0%Z <-> Z.testbit (arr !!! (i / 8)%nat) (Z.of_nat (7 - i mod 8)) = false.
Proof. rewrite BitAt_testbit. destruct (Z.testbit _ _); simpl; split; congruence. Qed.

(** Bit index [i*8+j] lives in byte [i] at offset [j]. *)
Lemma bit_index_div i j : j < 8 -> (i * 8 + j) / 8 = i.
Proof. intros. symmetry. apply (Nat.div_unique _ 8 i j); lia. Qed.

Lemma bit_index_mod i j : j < 8 -> (i * 8 + j) mod 8 = j.
Proof. intros. symmetry. apply (Nat.mod_unique _ 8 i j); lia. Qed.

Lemma bit_index_split k : k = (k / 8) * 8 + k mod 8 /\ k mod 8 < 8.
Proof.
  split; [|apply Nat.mod_upper_bound; lia].
  rewrite (Nat.div_mod_eq k 8) at 1. lia.
Qed.

Lemma testbit_byte_high x n : is_byte x -> (8 <= n)%Z -> Z.testbit x n = false.
Proof.
  intros [Hlo Hhi] Hn.
  destruct (Z.eq_dec x 0%Z) as [->|Hx]; [apply Z.bits_0|].
  apply Z.bits_above_log2; [lia|].
  apply Z.lt_le_trans with 8%Z; [|lia].
  apply Z.log2_lt_pow2; [lia|]. change (2 ^ 8)%Z with 256%Z. lia.
Qed.

Lemma byte_all_ones x :
  is_byte x -> (x = 255%Z <-> forall j, j < 8 -> Z.testbit x (Z.of_nat j) = true).
Proof.
  intros Hx. split.
  - intros -> j Hj.
    do 8 (destruct j as [|j]; [reflexivity|]). lia.
  - intros Hbits. apply Z.bits_inj'. intros n Hn.
    destruct (Z_lt_le_dec n 8) as [Hlt|Hge].
    + rewrite <- (Z2Nat.id n) by lia.
      rewrite Hbits by lia.
      assert (Hc : Z.to_nat n < 8) by lia.
      revert Hc. generalize (Z.to_nat n). intros j Hj.
      do 8 (destruct j as [|j]; [reflexivity|]). lia.
    + rewrite testbit_byte_high by (done || lia).
      symmetry. apply testbit_byte_high; [unfold is_byte|]; lia.
Qed.

Lemma testbit_not8 b j : j < 8 -> Z.testbit (not8 b) (Z.of_nat j) = negb (Z.testbit b (Z.of_nat j)).
Proof.
  intros Hj. unfold not8. rewrite Z.lxor_spec.
  assert (Z.testbit 255 (Z.of_nat j) = true) as ->.
  { do 8 (destruct j as [|j]; [reflexivity|]). lia. }
  apply xorb_true_r.
Qed.

Lemma shl8_1 n : n < 8 -> shl8 1 n = (2 ^ Z.of_nat n)%Z.
Proof.
  intros Hn. unfold shl8. rewrite Z.shiftl_1_l.
  apply Z.mod_small. split; [apply Z.pow_nonneg; lia|].
  change 256%Z with (2 ^ 8)%Z. apply Z.pow_lt_mono_r; lia.
Qed.

(** The effect of [arr[i/8] |= 0x01 << (7 - (i % 8))] on every bit. *)
Lemma BitAt_set_bit (arr : list Z) i k :
  k / 8 < length arr ->
  BitAt (<[(i / 8)%nat := Z.lor (arr !!! (i / 8)%nat) (shl8 1 (7 - i mod 8))]> arr) k =
  if decide (k = i) then 1%Z else BitAt arr k.
Proof.
  intros Hk. rewrite !BitAt_testbit.
  destruct (decide (k / 8 = i / 8)) as [Heq|Hne].
  - rewrite Heq. rewrite list_lookup_total_insert_eq by lia.
    rewrite Z.lor_spec, shl8_1 by lia.
    rewrite Z.pow2_bits_eqb by lia.
    pose proof (bit_index_split k) as [Hk1 Hk2].
    pose proof (bit_index_split i) as [Hi1 Hi2].
    case_decide as Hki.
    + subst k. rewrite Z.eqb_refl, orb_true_r. done.
    + assert ((Z.of_nat (7 - i mod 8) =? Z.of_nat (7 - k mod 8))%Z = false) as ->.
      { apply Z.eqb_neq. lia. }
      by rewrite orb_false_r.
  - rewrite list_lookup_total_insert_ne by done.
    case_decide as Hki; [by subst|done].
Qed.

Lemma elem_of_bit_items msg i b j :
  (i, b, j) ∈ bit_items msg <-> msg !! i = Some b /\ j < 8.
Proof.
  unfold bit_items. rewrite list_elem_of_bind. split.
  - intros ([i' b'] & Hin & Hp).
    change ((i, b, j) ∈ (fun j0 => (i', b', j0)) <$> seq 0 8) in Hin.
    apply list_elem_of_fmap in Hin as (j' & Heq & Hj).
    injection Heq as -> -> ->.
    apply elem_of_indexed in Hp as [_ Hp]. rewrite Nat.sub_0_r in Hp.
    apply elem_of_seq in Hj. split; [done|lia].
  - intros [Hb Hj]. exists (i, b). split.
    + change ((i, b, j) ∈ (fun j0 => (i, b, j0)) <$> seq 0 8).
      apply list_elem_of_fmap. exists j. split; [done|].
      apply elem_of_seq. lia.
    + apply elem_of_indexed. rewrite Nat.sub_0_r. split; [lia|done].
Qed.

(** Every bit index of a message is visited, with its byte and offset. *)
Lemma bit_items_complete (msg : Message) k :
  k < 8 * length msg ->
  (k / 8, msg !!! (k / 8), k mod 8) ∈ bit_items msg.
Proof.
  intros Hk. apply elem_of_bit_items.
  pose proof (bit_index_split k) as [Hk1 Hk2]. split; [|done].
  apply list_lookup_lookup_total_lt. lia.
Qed.

(** The bit the loops of [Sign] and [Verify] compute at iteration [(i, b, j)]
    is bit [i*8+j] of the message. *)
Lemma bit_items_BitAt (msg : Message) i b j :
  (i, b, j) ∈ bit_items msg ->
  Z.land (shr8 b (7 - j)) 1 = BitAt msg (i * 8 + j) /\ i * 8 + j < 8 * length msg.
Proof.
  intros [Hb Hj]%elem_of_bit_items. split.
  - unfold BitAt. rewrite bit_index_div, bit_index_mod by done.
    by rewrite (list_lookup_total_correct _ _ _ Hb).
  - apply lookup_lt_Some in Hb. lia.
Qed.

Lemma elem_of_middle {A} (x : A) pre post : x ∈ pre ++ x :: post.
Proof. apply elem_of_app. right. constructor. Qed.

Lemma elem_of_snoc {A} (x y : A) pre : x ∈ pre ++ [y] <-> x ∈ pre \/ x = y.
Proof. by rewrite elem_of_app, list_elem_of_singleton. Qed.

(** Writing [arr[k] = v] keeps an array filled as [sel] says wherever it was,
    and fills index [k]. *)
Lemma write_inv (arr : list Block) n k v (sel : nat -> Block) (dom : nat -> Prop) :
  length arr = n -> k < n -> v = sel k ->
  (forall k', dom k' -> arr !!! k' = sel k') ->
  length (<[k := v]> arr) = n /\
  (forall k', dom k' \/ k' = k -> <[k := v]> arr !!! k' = sel k').
Proof.
  intros Hl Hk -> Hdom. split; [by rewrite length_insert|].
  intros k' Hk'. destruct (decide (k' = k)) as [->|Hne].
  - apply list_lookup_total_insert_eq. lia.
  - rewrite list_lookup_total_insert_ne by done.
    destruct Hk' as [?|?]; [auto|done].
Qed.

Ltac loop_invariant I Q :=
  match goal with
  | |- context [returns ?c ?k] =>
      pattern (returns c k);
      apply (returns_outcome c k I Q)
  end.

(** Name the outcome of the first loop in the goal, to be proved with the
    invariant [I] of the iterations done and [Q] of a value returned early. *)
Ltac first_loop H I Q :=
  match goal with
  | |- context [run ?f ?xs ?s] =>
      assert (H : outcome (run f xs s) (I xs) Q);
      [apply (run_outcome f I Q) | revert H; generalize (run f xs s); intros [?|?] H; simpl in H]
  end.

Lemma byte_index_lt k n : k < 8 * n -> k / 8 < n.
Proof. intros Hk. apply Nat.Div0.div_lt_upper_bound. lia. Qed.

(** A bit index of a 256-bit array falls in one of its 32 bytes. *)
Lemma bit_in_bytes k : k < MESSAGE_BITS -> k / 8 < MESSAGE_BYTES.
Proof. intros Hk. apply byte_index_lt. exact Hk. Qed.

(** ** The loops of the scheme *)

(** *** [Sign] *)

Lemma Sign_inv msg pri :
  length msg = MESSAGE_BYTES ->
  length (Preimage (Sign msg pri)) = MESSAGE_BITS /\
  forall k, (exists i b j, (i, b, j) ∈ bit_items msg /\ k = i * 8 + j) ->
    Preimage (Sign msg pri) !!! k =
    selected msg (PrivateKey.ZeroHash pri) (PrivateKey.OneHash pri) k.
Proof.
  intros Hlen. unfold Sign. rewrite bits_loop_run.
  set (sel := selected msg (PrivateKey.ZeroHash pri) (PrivateKey.OneHash pri)).
  set (I := fun (pre : list (nat * Z * nat)) (sig : Signature) =>
    length (Preimage sig) = MESSAGE_BITS /\
    forall k, (exists i b j, (i, b, j) ∈ pre /\ k = i * 8 + j) ->
      Preimage sig !!! k = sel k).
  loop_invariant (I (bit_items msg)) (fun _ : Signature => False); [|done|done].
  apply (run_outcome _ I).
  - split; [reflexivity|]. intros k (i & b & j & Hin & _). by apply elem_of_nil in Hin.
  - intros pre [[i b] j] post sig Hxs [Hl HI]. cbn [fst snd].
    pose proof (elem_of_middle (i, b, j) pre post) as Hin. rewrite <- Hxs in Hin.
    apply bit_items_BitAt in Hin as [Hbit Hidx]. rewrite Hbit.
    assert (Hw : forall v, v = sel (i * 8 + j) ->
              I (pre ++ [(i, b, j)]) {| Preimage := <[i * 8 + j := v]> (Preimage sig) |}).
    { intros v Hv.
      destruct (write_inv (Preimage sig) MESSAGE_BITS (i * 8 + j) v sel
                  (fun k => exists i b j, (i, b, j) ∈ pre /\ k = i * 8 + j))
        as [Hl' HI']; [done| |done|done|].
      { rewrite Hlen in Hidx. exact Hidx. }
      split; [done|]. intros k (i' & b' & j' & Hin' & ->). apply HI'.
      apply elem_of_snoc in Hin' as [Hin'|[= -> -> ->]]; [left; eauto|by right]. }
    unfold sel at 1, selected in Hw.
    destruct (BitAt msg (i * 8 + j) =? 0)%Z; simpl; by apply Hw.
Qed.

Lemma Sign_lookup msg pri k :
  length msg = MESSAGE_BYTES -> k < MESSAGE_BITS ->
  Preimage (Sign msg pri) !!! k =
  selected msg (PrivateKey.ZeroHash pri) (PrivateKey.OneHash pri) k.
Proof.
  intros Hlen Hk. apply Sign_inv; [done|].
  exists (k / 8), (msg !!! (k / 8)), (k mod 8). split.
  - apply bit_items_complete. rewrite Hlen. exact Hk.
  - apply bit_index_split.
Qed.

(** *** [Verify] *)

Lemma Verify_true_iff msg pub sig :
  length msg = MESSAGE_BYTES ->
  Verify msg pub sig = true <->
  forall k, k < MESSAGE_BITS ->
    Hash (Preimage sig !!! k) =
    selected msg (PublicKey.ZeroHash pub) (PublicKey.OneHash pub) k.
Proof.
  intros Hlen. unfold Verify. rewrite bits_loop_run.
  set (sel := selected msg (PublicKey.ZeroHash pub) (PublicKey.OneHash pub)).
  set (I := fun (pre : list (nat * Z * nat)) (_ : unit) =>
    forall i b j, (i, b, j) ∈ pre -> Hash (Preimage sig !!! (i * 8 + j)) = sel (i * 8 + j)).
  set (Q := fun r : bool =>
    r = false /\ exists k, k < MESSAGE_BITS /\ Hash (Preimage sig !!! k) <> sel k).
  loop_invariant (I (bit_items msg)) Q.
  - apply (run_outcome _ I).
    + intros i b j Hin. by apply elem_of_nil in Hin.
    + intros pre [[i b] j] post u Hxs HI. cbn [fst snd].
      pose proof (elem_of_middle (i, b, j) pre post) as Hin. rewrite <- Hxs in Hin.
      apply bit_items_BitAt in Hin as [Hbit Hidx]. rewrite Hbit.
      rewrite Hlen in Hidx.
      assert (Hw : forall blk, blk = sel (i * 8 + j) ->
        outcome (if bool_decide (Hash (Preimage sig !!! (i * 8 + j)) <> blk)
                 then Break false else Continue u) (I (pre ++ [(i, b, j)])) Q).
      { intros blk ->. case_bool_decide as Hd; simpl.
        - split; [done|]. by exists (i * 8 + j).
        - intros i' b' j' [Hin'|[= -> -> ->]]%elem_of_snoc; [by eapply HI|done]. }
      unfold sel at 1, selected in Hw.
      destruct (BitAt msg (i * 8 + j) =? 0)%Z; by apply Hw.
  - intros [] HI. split; [|done]. intros _ k Hk.
    pose proof (bit_index_split k) as [Hk1 _]. rewrite Hk1 at 1 2.
    eapply HI, bit_items_complete. by rewrite Hlen.
  - intros r [-> (k & Hk & Hne)]. split; [done|]. intros Hall. by destruct Hne; apply Hall.
Qed.

(** *** [GetPublicKey] *)

Lemma indexed_functional {A} (l : list A) i x y :
  (i, x) ∈ indexed 0 l -> (i, y) ∈ indexed 0 l -> x = y.
Proof.
  intros [_ Hx]%elem_of_indexed [_ Hy]%elem_of_indexed. congruence.
Qed.

Lemma indexed_complete {A} `{!Inhabited A} (l : list A) i :
  i < length l -> (i, l !!! i) ∈ indexed 0 l.
Proof.
  intros Hi. apply elem_of_indexed. split; [lia|].
  rewrite Nat.sub_0_r. by apply list_lookup_lookup_total_lt.
Qed.

Lemma GetPublicKey_derived pri :
  wf_PrivateKey pri -> derived pri (GetPublicKey pri).
Proof.
  intros [HlZ HlO]. unfold GetPublicKey.
  rewrite for_range_run.
  first_loop H1
    (fun (pre : list (nat * Block)) (pub : PublicKey.t) =>
       PublicKey.OneHash pub = Blocks_zero /\
       length (PublicKey.ZeroHash pub) = MESSAGE_BITS /\
       forall i blk, (i, blk) ∈ pre -> PublicKey.ZeroHash pub !!! i = Hash blk)
    (fun _ : PublicKey.t => False); [| | |done].
  { repeat split. intros i blk Hin. by apply elem_of_nil in Hin. }
  { intros pre [i blk] post pub Hxs (HO & Hl & HI). simpl.
    pose proof (elem_of_middle (i, blk) pre post) as Hin. rewrite <- Hxs in Hin.
    split; [done|]. rewrite length_insert. split; [done|].
    intros i' blk' [Hin'|[= -> ->]]%elem_of_snoc.
    - destruct (decide (i' = i)) as [->|Hne].
      + assert (blk' = blk) as ->.
        { eapply indexed_functional; [|exact Hin]. rewrite Hxs.
          apply elem_of_app. by left. }
        apply list_lookup_total_insert_eq.
        apply elem_of_indexed in Hin as [_ Hin%lookup_lt_Some]. lia.
      + rewrite list_lookup_total_insert_ne by done. by apply HI.
    - apply list_lookup_total_insert_eq.
      apply elem_of_indexed in Hin as [_ Hin%lookup_lt_Some]. lia. }
  destruct H1 as (HO1 & Hl1 & HI1).
  rewrite for_range_run.
  first_loop H2
    (fun (pre : list (nat * Block)) (pub : PublicKey.t) =>
       PublicKey.ZeroHash pub = PublicKey.ZeroHash s /\
       length (PublicKey.OneHash pub) = MESSAGE_BITS /\
       forall i blk, (i, blk) ∈ pre -> PublicKey.OneHash pub !!! i = Hash blk)
    (fun _ : PublicKey.t => False); [| | |done].
  { split; [done|]. split; [by rewrite HO1|]. intros i blk Hin. by apply elem_of_nil in Hin. }
  { intros pre [i blk] post pub Hxs (HZ & Hl & HI). simpl.
    pose proof (elem_of_middle (i, blk) pre post) as Hin. rewrite <- Hxs in Hin.
    split; [done|]. rewrite length_insert. split; [done|].
    intros i' blk' [Hin'|[= -> ->]]%elem_of_snoc.
    - destruct (decide (i' = i)) as [->|Hne].
      + assert (blk' = blk) as ->.
        { eapply indexed_functional; [|exact Hin]. rewrite Hxs.
          apply elem_of_app. by left. }
        apply list_lookup_total_insert_eq.
        apply elem_of_indexed in Hin as [_ Hin%lookup_lt_Some]. lia.
      + rewrite list_lookup_total_insert_ne by done. by apply HI.
    - apply list_lookup_total_insert_eq.
      apply elem_of_indexed in Hin as [_ Hin%lookup_lt_Some]. lia. }
  destruct H2 as (HZ2 & Hl2 & HI2). simpl.
  intros i Hi. split.
  - rewrite HZ2. apply HI1, indexed_complete. by rewrite HlZ.
  - apply HI2, indexed_complete. by rewrite HlO.
Qed.

(** *** The assembly of the forged signature *)

Lemma forgeSig_lookup message cov k :
  k < MESSAGE_BITS ->
  Preimage (forgeSig message cov) !!! k =
  selected message (zeroUsedSigs cov) (oneUsedSigs cov) k.
Proof.
  intros Hk. unfold forgeSig. rewrite for_lt_run.
  set (sel := selected message (zeroUsedSigs cov) (oneUsedSigs cov)).
  set (I := fun (pre : list nat) (sig : Signature) =>
    length (Preimage sig) = MESSAGE_BITS /\
    forall i, i ∈ pre -> Preimage sig !!! i = sel i).
  loop_invariant (I (seq 0 256)) (fun _ : Signature => False); [| |done].
  - apply (run_outcome _ I).
    + split; [reflexivity|]. intros i Hin. by apply elem_of_nil in Hin.
    + intros pre i post sig Hxs [Hl HI].
      pose proof (elem_of_middle i pre post) as Hin. rewrite <- Hxs in Hin.
      apply elem_of_seq in Hin.
      assert (Hw : forall v, v = sel i ->
                I (pre ++ [i]) {| Preimage := <[i := v]> (Preimage sig) |}).
      { intros v Hv.
        destruct (write_inv (Preimage sig) MESSAGE_BITS i v sel (fun i' => i' ∈ pre))
          as [Hl' HI']; [done|unfold MESSAGE_BITS; lia|done|done|].
        split; [done|]. intros i' Hin'. apply HI'. by apply elem_of_snoc. }
      unfold sel at 1, selected in Hw.
      cbv zeta. fold (BitAt message i).
      destruct (BitAt message i =? 0)%Z; simpl; by apply Hw.
  - intros sig [_ HI]. apply HI, elem_of_seq. unfold MESSAGE_BITS in Hk. lia.
Qed.

(** ** The signature scheme *)

(** C3: [Sign] reveals, at every bit index of the message, the private block
    of the half that the bit selects: [ZeroHash] for a 0 bit, [OneHash] for
    a 1 bit, with bit [i] read as [(m[i/8] >> (7 - i%8)) & 1]. *)
Theorem C3_Sign_selects_by_bit (m : Message) (pri : PrivateKey.t) (i : nat) :
  length m = MESSAGE_BYTES ->
  i < MESSAGE_BITS ->
  Preimage (Sign m pri) !!! i =
    (if (Z.land (Z.shiftr (m !!! (i / 8)%nat) (Z.of_nat (7 - i mod 8))) 1 =? 0)%Z
     then PrivateKey.ZeroHash pri !!! i
     else PrivateKey.OneHash pri !!! i)
  /\ length (Preimage (Sign m pri)) = MESSAGE_BITS.
Proof.
  intros Hlen Hi. split.
  - by rewrite Sign_lookup.
  - by apply Sign_inv.
Qed.

(** C1: a signature made with a private key verifies against the public key
    derived from it, for every 32-byte message. *)
Theorem C1_Verify_Sign (pri : PrivateKey.t) (pub : PublicKey.t) (m : Message) :
  length m = MESSAGE_BYTES ->
  derived pri pub ->
  Verify m pub (Sign m pri) = true.
Proof.
  intros Hlen Hpub. apply Verify_true_iff; [done|].
  intros k Hk. rewrite Sign_lookup by done.
  destruct (Hpub k Hk) as [HZ HO].
  unfold selected. destruct (BitAt m k =? 0)%Z; congruence.
Qed.

(** ** The coverage tracker *)

Lemma elem_of_block_items sigslice i b :
  (i, b) ∈ block_items sigslice <->
  exists sig, sig ∈ sigslice /\ Preimage sig !! i = Some b.
Proof.
  unfold block_items. rewrite list_elem_of_bind. split.
  - intros (sig & Hin & Hsig).
    apply elem_of_indexed in Hin as [_ Hin]. rewrite Nat.sub_0_r in Hin. eauto.
  - intros (sig & Hsig & Hb). exists sig. split; [|done].
    apply elem_of_indexed. rewrite Nat.sub_0_r. split; [lia|done].
Qed.

(** A [range] loop that ignores its index. *)
Lemma for_range_elements {A R St} i (l : list A) (g : A -> St -> ctl R St) s :
  for_range i l (fun _ x => g x) s = run g l s.
Proof.
  revert i s; induction l as [|x l IH]; intros i s; simpl; [done|].
  destruct (g x s); auto.
Qed.

Lemma cover_sigs_run pub sigslice cov :
  cover_sigs pub sigslice cov =
  run (fun x => cover_block pub x.1 x.2) (block_items sigslice) cov.
Proof.
  unfold cover_sigs, block_items.
  rewrite (for_range_elements 0 sigslice
    (fun sig cov' => for_range 0 (Preimage sig) (fun i block cov'' => cover_block pub i block cov'') cov')).
  rewrite <- run_bind.
  apply run_ext. intros sig cov' _. apply for_range_run.
Qed.

Lemma block_items_app sigs1 sigs2 :
  forall x, x ∈ block_items sigs1 -> x ∈ block_items (sigs1 ++ sigs2).
Proof.
  intros [i b] (sig & Hsig & Hb)%elem_of_block_items.
  apply elem_of_block_items. exists sig. split; [|done].
  apply elem_of_app. by left.
Qed.

Lemma BitAt_zero n k : k < 8 * n -> BitAt (replicate n 0%Z) k = 0%Z.
Proof.
  intros Hk. rewrite BitAt_testbit.
  rewrite lookup_total_replicate_2; [by rewrite Z.bits_0|].
  by apply byte_index_lt.
Qed.

Lemma tracks_init hit : tracks hit [] Message_zero Blocks_zero.
Proof.
  split; [reflexivity|]. split; [reflexivity|].
  intros k Hk. unfold Message_zero. rewrite BitAt_zero by exact Hk. split; [|done].
  split; [done|]. intros (b & Hin & _). by apply elem_of_nil in Hin.
Qed.

(** A block classified as [hit] at index [i] sets bit [i] and is cached. *)
Lemma tracks_hit hit pre used cache i block :
  hit (i, block) ->
  tracks hit pre used cache ->
  tracks hit (pre ++ [(i, block)])
    (<[(i / 8)%nat := Z.lor (used !!! (i / 8)%nat) (shl8 1 (7 - i mod 8))]> used)
    (<[i := block]> cache).
Proof.
  intros Hhit (Hlu & Hlc & Hbits).
  split; [by rewrite length_insert|]. split; [by rewrite length_insert|].
  intros k Hk. destruct (Hbits k Hk) as [Hiff Hcache].
  rewrite BitAt_set_bit by (rewrite Hlu; by apply bit_in_bytes).
  case_decide as Hki.
  - subst k. rewrite list_lookup_total_insert_eq by lia.
    split; [|intros _; split; [apply elem_of_snoc; by right|done]].
    split; [|done]. intros _. exists block. split; [|done].
    apply elem_of_snoc. by right.
  - rewrite list_lookup_total_insert_ne by done. split.
    + rewrite Hiff. split.
      * intros (b & Hin & Hb). exists b. split; [|done]. apply elem_of_snoc. by left.
      * intros (b & [Hin|[= -> ->]]%elem_of_snoc & Hb); [eauto|done].
    + intros H1. destruct (Hcache H1) as [Hin Hc]. split; [|done].
      apply elem_of_snoc. by left.
Qed.

(** A block not classified as [hit] leaves the bitmap and the cache as they
    were. *)
Lemma tracks_miss hit pre used cache i block :
  ~ hit (i, block) ->
  tracks hit pre used cache ->
  tracks hit (pre ++ [(i, block)]) used cache.
Proof.
  intros Hmiss (Hlu & Hlc & Hbits). split; [done|]. split; [done|].
  intros k Hk. destruct (Hbits k Hk) as [Hiff Hcache]. split.
  - rewrite Hiff. split.
    + intros (b & Hin & Hb). exists b. split; [|done]. apply elem_of_snoc. by left.
    + intros (b & [Hin|[= -> ->]]%elem_of_snoc & Hb); [eauto|done].
  - intros H1. destruct (Hcache H1) as [Hin Hc]. split; [|done].
    apply elem_of_snoc. by left.
Qed.

Lemma cover_block_outcome pub pre i block cov :
  coverage_inv pub pre cov ->
  outcome (cover_block pub i block cov)
    (coverage_inv pub (pre ++ [(i, block)]))
    (fun r => r = "no match"%string /\ hits_none pub (i, block)).
Proof.
  intros (Hall & HZ & HO). unfold cover_block. cbv zeta.
  case_bool_decide as Hz; [|case_bool_decide as Ho]; simpl.
  - split; [|split]; simpl.
    + intros x [Hin | ->]%elem_of_snoc; [auto|by left].
    + by apply tracks_hit.
    + apply tracks_miss; [|done]. by intros [Hne _].
  - split; [|split]; simpl.
    + intros x [Hin | ->]%elem_of_snoc; [auto|by right].
    + by apply tracks_miss.
    + by apply tracks_hit.
  - done.
Qed.

Lemma cover_sigs_outcome pub sigslice :
  outcome (BuildCoverage pub sigslice)
    (coverage_inv pub (block_items sigslice))
    (fun r => r = "no match"%string /\
              exists x, x ∈ block_items sigslice /\ hits_none pub x).
Proof.
  unfold BuildCoverage. rewrite cover_sigs_run.
  apply run_outcome.
  - split; [|split; apply tracks_init].
    intros x Hin. by apply elem_of_nil in Hin.
  - intros pre [i block] post cov Hxs Hinv. simpl.
    pose proof (cover_block_outcome pub pre i block cov Hinv) as Hstep.
    destruct (cover_block pub i block cov); simpl in *; [done|].
    destruct Hstep as [-> Hnone]. split; [done|].
    exists (i, block). split; [|done]. rewrite Hxs. apply elem_of_middle.
Qed.

(** ** The forgeability predicate *)

Lemma high_bits_byte x :
  (forall n, (8 <= n)%Z -> Z.testbit x n = false) -> is_byte x.
Proof.
  intros Hhigh.
  assert (Hx : x = (x mod 2 ^ 8)%Z).
  { apply Z.bits_inj'. intros n Hn.
    destruct (Z_lt_le_dec n 8) as [Hlt|Hge].
    - by rewrite Z.mod_pow2_bits_low by lia.
    - rewrite Z.mod_pow2_bits_high by lia. by apply Hhigh. }
  rewrite Hx. apply Z.mod_pos_bound. reflexivity.
Qed.

Lemma is_byte_byte_test m zeroUsed oneUsed i :
  is_byte (m !!! i) -> is_byte (byte_test m zeroUsed oneUsed i).
Proof.
  intros Hb. apply high_bits_byte. intros n Hn. unfold byte_test, not8.
  rewrite Z.lor_spec, !Z.land_spec, Z.lxor_spec.
  rewrite (testbit_byte_high (m !!! i)) by done.
  rewrite (testbit_byte_high 255) by (unfold is_byte; lia).
  reflexivity.
Qed.

Lemma testbit_byte_test m zeroUsed oneUsed i j :
  j < 8 ->
  Z.testbit (byte_test m zeroUsed oneUsed i) (Z.of_nat j) =
  (Z.testbit (m !!! i) (Z.of_nat j) && Z.testbit (oneUsed !!! i) (Z.of_nat j))
  || (negb (Z.testbit (m !!! i) (Z.of_nat j)) && Z.testbit (zeroUsed !!! i) (Z.of_nat j)).
Proof.
  intros Hj. unfold byte_test.
  by rewrite Z.lor_spec, !Z.land_spec, testbit_not8.
Qed.

Lemma bit_covered_testbit m zeroUsed oneUsed k :
  bit_covered m zeroUsed oneUsed k =
  Z.testbit (byte_test m zeroUsed oneUsed (k / 8)) (Z.of_nat (7 - k mod 8)).
Proof.
  rewrite testbit_byte_test by lia. unfold bit_covered.
  rewrite !BitAt_testbit.
  destruct (Z.testbit (m !!! (k / 8)) _), (Z.testbit (oneUsed !!! (k / 8)) _),
    (Z.testbit (zeroUsed !!! (k / 8)) _); reflexivity.
Qed.

(** One byte passes the test exactly when its eight bits are covered. *)
Lemma byte_test_bits m zeroUsed oneUsed i :
  is_byte (m !!! i) ->
  byte_test m zeroUsed oneUsed i = 255%Z <->
  forall j, j < 8 -> bit_covered m zeroUsed oneUsed (i * 8 + j) = true.
Proof.
  intros Hb. rewrite byte_all_ones by by apply is_byte_byte_test.
  split.
  - intros Hbits j Hj. rewrite bit_covered_testbit.
    rewrite bit_index_div, bit_index_mod by done. apply Hbits. lia.
  - intros Hcov j Hj. specialize (Hcov (7 - j) ltac:(lia)).
    rewrite bit_covered_testbit in Hcov.
    rewrite bit_index_div, bit_index_mod in Hcov by lia.
    by replace (7 - (7 - j)) with j in Hcov by lia.
Qed.

Lemma wf_Message_byte m i : wf_Message m -> i < MESSAGE_BYTES -> is_byte (m !!! i).
Proof.
  intros [Hlen Hall] Hi.
  eapply (proj1 (Forall_lookup _ _) Hall i).
  apply list_lookup_lookup_total_lt. by rewrite Hlen.
Qed.

(** The two specification forms agree. *)
Lemma per_byte_per_bit m cov :
  wf_Message m ->
  IsForgeable_per_byte m cov = true <-> IsForgeable_per_bit m cov = true.
Proof.
  intros Hm. unfold IsForgeable_per_byte, IsForgeable_per_bit.
  rewrite !forallb_forall. split.
  - intros Hbytes k Hk%in_seq.
    pose proof (bit_index_split k) as [Hk1 Hk2]. rewrite Hk1.
    assert (Hi : k / 8 < MESSAGE_BYTES) by (apply bit_in_bytes; lia).
    apply byte_test_bits; [by apply wf_Message_byte| |done].
    apply Z.eqb_eq, Hbytes, in_seq. lia.
  - intros Hbits i Hi%in_seq. apply Z.eqb_eq.
    apply byte_test_bits; [apply wf_Message_byte; [done|lia]|].
    intros j Hj. apply Hbits, in_seq.
    sizes. lia.
Qed.

(** The scan of [isForgeable] runs the byte test at every byte position. *)
Lemma IsForgeable_per_byte_eq m cov :
  length m = MESSAGE_BYTES ->
  IsForgeable m cov = IsForgeable_per_byte m cov.
Proof.
  intros Hlen. unfold IsForgeable, isForgeable_scan. rewrite for_range_run.
  set (test := byte_test m (zeroUsed cov) (oneUsed cov)).
  first_loop Hrun
    (fun (pre : list (nat * Z)) (forgeable : Message) =>
       length forgeable = MESSAGE_BYTES /\
       forall i b, (i, b) ∈ pre -> test i = 255%Z)
    (fun _ : string => exists i, i < MESSAGE_BYTES /\ test i <> 255%Z).
  - split; [reflexivity|]. intros i b Hin. by apply elem_of_nil in Hin.
  - intros pre [i b] post forgeable Hxs [Hl HI]. cbn [fst snd]. cbv zeta.
    pose proof (elem_of_middle (i, b) pre post) as Hin. rewrite <- Hxs in Hin.
    apply elem_of_indexed in Hin as [_ Hb]. rewrite Nat.sub_0_r in Hb.
    assert (Hi : i < MESSAGE_BYTES) by (rewrite <- Hlen; by eapply lookup_lt_Some).
    rewrite !list_lookup_total_insert_eq by (rewrite ?length_insert; lia).
    assert (Ht : Z.lor (Z.land b (oneUsed cov !!! i))
                   (Z.land (not8 b) (zeroUsed cov !!! i)) = test i).
    { unfold test, byte_test. by rewrite (list_lookup_total_correct _ _ _ Hb). }
    rewrite Ht. case_bool_decide as Hd; simpl.
    + by exists i.
    + rewrite !length_insert. split; [done|].
      intros i' b' [Hin'|[= -> ->]]%elem_of_snoc; [by eapply HI|done].
  - destruct Hrun as [_ HI]. symmetry. apply forallb_forall.
    intros i Hi%in_seq. apply Z.eqb_eq.
    apply (HI i (m !!! i)), indexed_complete. rewrite Hlen. lia.
  - destruct Hrun as (i & Hi & Hne). symmetry. apply not_true_is_false.
    intros Hall. unfold IsForgeable_per_byte in Hall.
    rewrite forallb_forall in Hall.
    apply Hne, Z.eqb_eq, Hall, in_seq. lia.
Qed.

Lemma IsForgeable_bits m cov :
  wf_Message m ->
  IsForgeable m cov = true <->
  forall k, k < MESSAGE_BITS ->
    bit_covered m (zeroUsed cov) (oneUsed cov) k = true.
Proof.
  intros Hm. rewrite IsForgeable_per_byte_eq by apply Hm.
  rewrite per_byte_per_bit by done.
  unfold IsForgeable_per_bit. rewrite forallb_forall.
  split; intros H k Hk; apply H; [apply in_seq|apply in_seq in Hk]; lia.
Qed.

(** C6: the byte-wise test of [isForgeable] decides the bit-wise definition
    of forgeability: every byte position yields [0xFF] exactly when, at
    every bit index, the bitmap bit matching the message bit is set. *)
Theorem C6_per_byte_refines_per_bit (m : Message) (cov : Coverage) :
  wf_Message m ->
  IsForgeable m cov = IsForgeable_per_bit m cov /\
  IsForgeable_per_byte m cov = IsForgeable_per_bit m cov.
Proof.
  intros Hm.
  assert (Hbb : IsForgeable_per_byte m cov = IsForgeable_per_bit m cov).
  { apply eq_true_iff_eq. by apply per_byte_per_bit. }
  split; [|done]. rewrite <- Hbb. apply IsForgeable_per_byte_eq, Hm.
Qed.

(** The closure sends the candidate string when its digest passes the
    predicate, and the empty string otherwise. *)
Lemma isForgeable_output cov msgString :
  isForgeable (zeroUsed cov) (oneUsed cov) msgString =
  if IsForgeable (GetMessageFromString msgString) cov then msgString else ""%string.
Proof.
  unfold isForgeable, IsForgeable, isForgeable_scan. cbv zeta.
  match goal with |- context [for_range ?i ?l ?f ?s] =>
    pose proof (for_range_run i l f s) as Hrun; revert Hrun;
    generalize (for_range i l f s); intros c Hrun
  end.
  assert (Hb : forall r, c = Break r -> r = ""%string).
  { intros r Hc. rewrite Hc in Hrun. symmetry in Hrun. revert Hrun.
    match goal with |- run ?f ?xs ?s = _ -> _ =>
      pose proof (run_outcome f (fun _ _ => True) (fun r => r = ""%string) xs s I) as Hout
    end.
    intros Hrun. rewrite Hrun in Hout. apply Hout.
    intros pre [i b] post s _ _. cbn [fst snd]. cbv zeta.
    by case_bool_decide. }
  destruct c as [s|r]; simpl; [done|by apply Hb].
Qed.

(** ** What the coverage tracker computes *)

Lemma BuildCoverage_inv pub sigslice cov :
  BuildCoverage pub sigslice = Continue cov ->
  coverage_inv pub (block_items sigslice) cov.
Proof.
  intros Hcov. pose proof (cover_sigs_outcome pub sigslice) as Hout.
  by rewrite Hcov in Hout.
Qed.

(** C5: a block that hashes to neither half of the public key, anywhere in
    the signatures processed, makes the coverage build panic with
    ["no match"]: no coverage state comes out. *)
Theorem C5_mismatch_panics (pub : PublicKey.t) (sigslice : list Signature)
    (sig : Signature) (i : nat) (block : Block) :
  sig ∈ sigslice ->
  Preimage sig !! i = Some block ->
  Hash block <> PublicKey.ZeroHash pub !!! i ->
  Hash block <> PublicKey.OneHash pub !!! i ->
  BuildCoverage pub sigslice = Break "no match"%string.
Proof.
  intros Hsig Hblock HneZ HneO.
  pose proof (cover_sigs_outcome pub sigslice) as Hout.
  destruct (BuildCoverage pub sigslice) as [cov|r]; simpl in Hout.
  - destruct Hout as [Hall _].
    assert (Hin : (i, block) ∈ block_items sigslice).
    { apply elem_of_block_items. eauto. }
    destruct (Hall _ Hin) as [Hz|[_ Ho]]; unfold hits_zero in *; simpl in *; congruence.
  - by destruct Hout as [-> _].
Qed.

(** C4, as the code has it: after a coverage build that did not panic, bit
    [i] of [zeroUsed] is set exactly when a processed block at index [i]
    hashes to [ZeroHash[i]], and bit [i] of [oneUsed] exactly when a
    processed block at index [i] hashes to [OneHash[i]] and not to
    [ZeroHash[i]] (the zero half is tried first); a set bit comes with a
    cached block of that kind.  [BuildCoverage] takes no message: the
    classification cannot depend on one. *)
Theorem C4_coverage_bits (pub : PublicKey.t) (sigslice : list Signature)
    (cov : Coverage) (i : nat) :
  BuildCoverage pub sigslice = Continue cov ->
  i < MESSAGE_BITS ->
  (BitAt (zeroUsed cov) i = 1%Z <->
     exists sig block, sig ∈ sigslice /\ Preimage sig !! i = Some block /\
       Hash block = PublicKey.ZeroHash pub !!! i) /\
  (BitAt (zeroUsed cov) i = 1%Z ->
     Hash (zeroUsedSigs cov !!! i) = PublicKey.ZeroHash pub !!! i /\
     exists sig, sig ∈ sigslice /\ Preimage sig !! i = Some (zeroUsedSigs cov !!! i)) /\
  (BitAt (oneUsed cov) i = 1%Z <->
     exists sig block, sig ∈ sigslice /\ Preimage sig !! i = Some block /\
       Hash block = PublicKey.OneHash pub !!! i /\
       Hash block <> PublicKey.ZeroHash pub !!! i) /\
  (BitAt (oneUsed cov) i = 1%Z ->
     Hash (oneUsedSigs cov !!! i) = PublicKey.OneHash pub !!! i /\
     exists sig, sig ∈ sigslice /\ Preimage sig !! i = Some (oneUsedSigs cov !!! i)).
Proof.
  intros Hcov Hi.
  destruct (BuildCoverage_inv _ _ _ Hcov) as (_ & (_ & _ & HZ) & (_ & _ & HO)).
  destruct (HZ i Hi) as [HZiff HZc]. destruct (HO i Hi) as [HOiff HOc].
  unfold hits_zero, hits_one in *. simpl in *.
  repeat split.
  - intros (b & (sig & Hsig & Hb)%elem_of_block_items & Hh)%HZiff. eauto.
  - intros (sig & b & Hsig & Hb & Hh). apply HZiff. exists b. split; [|done].
    apply elem_of_block_items. eauto.
  - by destruct (HZc H) as [_ ->].
  - destruct (HZc H) as [(sig & Hsig & Hb)%elem_of_block_items _]. eauto.
  - intros (b & (sig & Hsig & Hb)%elem_of_block_items & Hne & Hh)%HOiff.
    exists sig, b. repeat split; congruence.
  - intros (sig & b & Hsig & Hb & Hh & Hne). apply HOiff. exists b.
    split; [apply elem_of_block_items; eauto|]. split; congruence.
  - by destruct (HOc H) as [_ [_ ->]].
  - destruct (HOc H) as [(sig & Hsig & Hb)%elem_of_block_items _]. eauto.
Qed.

(** *** Monotonicity *)

Lemma cover_sigs_app pub sigs more cov :
  cover_sigs pub (sigs ++ more) cov =
  match cover_sigs pub sigs cov with
  | Continue cov' => cover_sigs pub more cov'
  | Break r => Break r
  end.
Proof.
  rewrite !cover_sigs_run. unfold block_items. rewrite bind_app, run_app.
  destruct (run _ _ cov); [|done]. by rewrite cover_sigs_run.
Qed.

(** The coverage loops only ever set bits. *)
Lemma cover_sigs_monotone pub more cov cov' :
  length (zeroUsed cov) = MESSAGE_BYTES ->
  length (oneUsed cov) = MESSAGE_BYTES ->
  cover_sigs pub more cov = Continue cov' ->
  forall k, k < MESSAGE_BITS ->
    (BitAt (zeroUsed cov) k = 1%Z -> BitAt (zeroUsed cov') k = 1%Z) /\
    (BitAt (oneUsed cov) k = 1%Z -> BitAt (oneUsed cov') k = 1%Z).
Proof.
  intros HlZ HlO. rewrite cover_sigs_run. intros Hrun.
  set (I := fun (_ : list (nat * Block)) (c : Coverage) =>
    length (zeroUsed c) = MESSAGE_BYTES /\ length (oneUsed c) = MESSAGE_BYTES /\
    forall k, k < MESSAGE_BITS ->
      (BitAt (zeroUsed cov) k = 1%Z -> BitAt (zeroUsed c) k = 1%Z) /\
      (BitAt (oneUsed cov) k = 1%Z -> BitAt (oneUsed c) k = 1%Z)).
  assert (Hout : outcome (run (fun x => cover_block pub x.1 x.2) (block_items more) cov)
                   (I (block_items more)) (fun _ => True)).
  { apply (run_outcome _ I); [by repeat split|].
    intros pre [i block] post c _ (Hl1 & Hl2 & Hmono). unfold cover_block. simpl.
    unfold I. repeat case_bool_decide; simpl; [| |done].
    - rewrite length_insert. do 2 (split; [done|]).
      intros k Hk. destruct (Hmono k Hk) as [Hz Ho]. split; [|done].
      intros Hset. rewrite BitAt_set_bit by (rewrite Hl1; by apply bit_in_bytes).
      case_decide; auto.
    - rewrite length_insert. do 2 (split; [done|]).
      intros k Hk. destruct (Hmono k Hk) as [Hz Ho]. split; [done|].
      intros Hset. rewrite BitAt_set_bit by (rewrite Hl2; by apply bit_in_bytes).
      case_decide; auto. }
  rewrite Hrun in Hout. apply Hout.
Qed.

(** C7: processing further signatures never clears a bit of [zeroUsed] or
    [oneUsed]: every bit set after the signatures [sigslice] is still set
    after [sigslice ++ more], whatever the public key and the signatures. *)
Theorem C7_coverage_monotone (pub : PublicKey.t) (sigslice more : list Signature)
    (cov cov' : Coverage) (i : nat) :
  BuildCoverage pub sigslice = Continue cov ->
  BuildCoverage pub (sigslice ++ more) = Continue cov' ->
  i < MESSAGE_BITS ->
  (BitAt (zeroUsed cov) i = 1%Z -> BitAt (zeroUsed cov') i = 1%Z) /\
  (BitAt (oneUsed cov) i = 1%Z -> BitAt (oneUsed cov') i = 1%Z).
Proof.
  intros Hcov Hcov' Hi.
  destruct (BuildCoverage_inv _ _ _ Hcov) as (_ & (HlZ & _) & (HlO & _)).
  unfold BuildCoverage in *. rewrite cover_sigs_app, Hcov in Hcov'.
  by eapply cover_sigs_monotone.
Qed.

(** ** Forgery from the coverage *)

Lemma forallb_false_witness {A} (f : A -> bool) l :
  forallb f l = false -> exists x, In x l /\ f x = false.
Proof.
  induction l as [|x l IH]; simpl; [done|].
  destruct (f x) eqn:Hx; simpl.
  - intros (y & Hy & Hfy)%IH. eauto.
  - intros _. eauto.
Qed.

(** A message that is not forgeable has a bit whose bitmap bit is not set. *)
Lemma not_forgeable_bit m cov :
  wf_Message m ->
  IsForgeable m cov = false ->
  exists k, k < MESSAGE_BITS /\ bit_covered m (zeroUsed cov) (oneUsed cov) k = false.
Proof.
  intros Hm Hno.
  rewrite IsForgeable_per_byte_eq in Hno by apply Hm.
  assert (Hbit : IsForgeable_per_bit m cov = false).
  { apply not_true_is_false. intros Hyes%per_byte_per_bit; [congruence|done]. }
  apply forallb_false_witness in Hbit as (k & Hk%in_seq & Hc).
  exists k. split; [lia|done].
Qed.

(** Where the message bit finds its bitmap bit set, the cached block hashes
    to the public block the message bit selects. *)
Lemma covered_bit_verifies pub pre cov m k :
  coverage_inv pub pre cov ->
  k < MESSAGE_BITS ->
  bit_covered m (zeroUsed cov) (oneUsed cov) k = true ->
  Hash (selected m (zeroUsedSigs cov) (oneUsedSigs cov) k) =
  selected m (PublicKey.ZeroHash pub) (PublicKey.OneHash pub) k.
Proof.
  intros (_ & (_ & _ & HZ) & (_ & _ & HO)) Hk. unfold bit_covered, selected.
  destruct (HZ k Hk) as [_ HZc]. destruct (HO k Hk) as [_ HOc].
  unfold hits_zero, hits_one in *. simpl in *.
  destruct (BitAt m k =? 0)%Z; intros Hset%Z.eqb_eq.
  - by destruct (HZc Hset) as [_ ->].
  - by destruct (HOc Hset) as [_ [_ ->]].
Qed.

(** Where the message bit finds its bitmap bit not set, no block cached for
    that index hashes to the public block the message bit selects, as long
    as the two public blocks at the index differ. *)
Lemma uncovered_bit_fails pub pre cov m k b :
  coverage_inv pub pre cov ->
  k < MESSAGE_BITS ->
  PublicKey.ZeroHash pub !!! k <> PublicKey.OneHash pub !!! k ->
  bit_covered m (zeroUsed cov) (oneUsed cov) k = false ->
  cached cov k b ->
  Hash b <> selected m (PublicKey.ZeroHash pub) (PublicKey.OneHash pub) k.
Proof.
  intros (_ & (_ & _ & HZ) & (_ & _ & HO)) Hk Hdist. unfold bit_covered, selected.
  destruct (HZ k Hk) as [_ HZc]. destruct (HO k Hk) as [_ HOc].
  unfold hits_zero, hits_one in *. simpl in *.
  destruct (BitAt m k =? 0)%Z; intros Hunset%Z.eqb_neq [[Hset ->]|[Hset ->]].
  - done.
  - destruct (HOc Hset) as [_ [Hne _]]. congruence.
  - destruct (HZc Hset) as [_ Heq]. congruence.
  - done.
Qed.

(** C2, as the code has it: on a coverage state built from [pub], a message
    that passes [IsForgeable] verifies with the signature assembled from the
    cached blocks; for a message that fails it, and a public key whose two
    halves differ at every index, no signature made of blocks cached for
    their index verifies. *)
Theorem C2_forgeability_soundness (pub : PublicKey.t) (sigslice : list Signature)
    (cov : Coverage) (m : Message) :
  BuildCoverage pub sigslice = Continue cov ->
  wf_Message m ->
  (IsForgeable m cov = true -> Verify m pub (forgeSig m cov) = true) /\
  (IsForgeable m cov = false ->
   distinct_halves pub ->
   forall assembled : Signature,
     (forall k, k < MESSAGE_BITS -> cached cov k (Preimage assembled !!! k)) ->
     Verify m pub assembled = false).
Proof.
  intros Hcov%BuildCoverage_inv Hm. split.
  - intros Hyes. apply Verify_true_iff; [apply Hm|].
    intros k Hk. rewrite forgeSig_lookup by done.
    eapply covered_bit_verifies; [done..|].
    by apply IsForgeable_bits.
  - intros Hno Hdist assembled Hcached.
    apply not_forgeable_bit in Hno as (k & Hk & Hunset); [|done].
    apply not_true_is_false. intros Hver.
    rewrite Verify_true_iff in Hver by apply Hm.
    by eapply uncovered_bit_fails; [done|exact Hk|by apply Hdist|done|by apply Hcached|apply Hver].
Qed.

(** The coverage of a single signature made with the private key of [pub]:
    the build does not panic, and every block of the signature is the one
    cached for its index. *)
Lemma single_signature_coverage pri pub m :
  length m = MESSAGE_BYTES ->
  derived pri pub ->
  exists cov, BuildCoverage pub [Sign m pri] = Continue cov /\
    forall k, k < MESSAGE_BITS -> cached cov k (Preimage (Sign m pri) !!! k).
Proof.
  intros Hlen Hpub.
  destruct (Sign_inv m pri Hlen) as [Hsl _].
  assert (Hitems : forall i b, (i, b) ∈ block_items [Sign m pri] ->
            i < MESSAGE_BITS /\ b = Preimage (Sign m pri) !!! i).
  { intros i b (sig & ->%list_elem_of_singleton & Hb)%elem_of_block_items.
    split; [rewrite <- Hsl; by eapply lookup_lt_Some|].
    symmetry. by apply list_lookup_total_correct. }
  pose proof (cover_sigs_outcome pub [Sign m pri]) as Hout.
  destruct (BuildCoverage pub [Sign m pri]) as [cov|r]; simpl in Hout.
  - exists cov. split; [done|]. intros k Hk.
    destruct Hout as (Hall & (_ & _ & HZ) & (_ & _ & HO)).
    destruct (HZ k Hk) as [HZiff HZc]. destruct (HO k Hk) as [HOiff HOc].
    assert (Hin : (k, Preimage (Sign m pri) !!! k) ∈ block_items [Sign m pri]).
    { apply elem_of_block_items. exists (Sign m pri). split; [by constructor|].
      apply list_lookup_lookup_total_lt. by rewrite Hsl. }
    destruct (Hall _ Hin) as [Hz|Ho].
    + left. assert (Hset : BitAt (zeroUsed cov) k = 1%Z) by (apply HZiff; eauto).
      split; [done|]. destruct (HZc Hset) as [Hc _].
      by destruct (Hitems _ _ Hc) as [_ <-].
    + right. assert (Hset : BitAt (oneUsed cov) k = 1%Z) by (apply HOiff; eauto).
      split; [done|]. destruct (HOc Hset) as [Hc _].
      by destruct (Hitems _ _ Hc) as [_ <-].
  - exfalso. destruct Hout as [_ ([i b] & Hin & HnZ & HnO)].
    destruct (Hitems _ _ Hin) as [Hi ->]. simpl in *.
    rewrite Sign_lookup in HnZ, HnO by done.
    destruct (Hpub i Hi) as [HZ HO]. unfold selected in *.
    destruct (BitAt m i =? 0)%Z; congruence.
Qed.

(** C9, as the code has it: under a public key whose two halves differ at
    every index, a signature for [m] does not verify for any other message
    that the coverage of that one signature does not make forgeable. *)
Theorem C9_non_reuse_soundness (pri : PrivateKey.t) (pub : PublicKey.t)
    (m m' : Message) :
  length m = MESSAGE_BYTES ->
  wf_Message m' ->
  derived pri pub ->
  distinct_halves pub ->
  exists cov,
    BuildCoverage pub [Sign m pri] = Continue cov /\
    (m' <> m -> IsForgeable m' cov = false -> Verify m' pub (Sign m pri) = false).
Proof.
  intros Hlen Hm' Hpub Hdist.
  destruct (single_signature_coverage pri pub m Hlen Hpub) as (cov & Hcov & Hcached).
  exists cov. split; [done|]. intros _ Hno.
  apply BuildCoverage_inv in Hcov.
  apply not_forgeable_bit in Hno as (k & Hk & Hunset); [|done].
  apply not_true_is_false. intros Hver.
  rewrite Verify_true_iff in Hver by apply Hm'.
  by eapply uncovered_bit_fails; [done|exact Hk|by apply Hdist|done|by apply Hcached|apply Hver].
Qed.

(** ** The difficulty estimate *)

(** The bit loops visit the bit indices in increasing order. *)
Lemma bit_items_indices_from {A} i (l : list A) :
  (fun x : nat * A * nat => x.1.1 * 8 + x.2) <$>
    (indexed i l ≫= (fun p => (fun j => (p.1, p.2, j)) <$> seq 0 8)) =
  seq (i * 8) (8 * length l).
Proof.
  revert i; induction l as [|x l IH]; intros i; [done|].
  cbn [indexed length]. rewrite bind_cons, fmap_app, IH.
  replace (8 * S (length l)) with (8 + 8 * length l) by lia.
  rewrite seq_app. f_equal; [|f_equal; lia].
  rewrite <- list_fmap_compose.
  pose proof (fmap_add_seq (i * 8) 0 8) as Hseq.
  rewrite Nat.add_0_r in Hseq. rewrite <- Hseq. reflexivity.
Qed.

Lemma bit_items_indices (msg : Message) :
  (fun x : nat * Z * nat => x.1.1 * 8 + x.2) <$> bit_items msg =
  seq 0 (8 * length msg).
Proof. apply (bit_items_indices_from 0). Qed.

Lemma filter_none {A} (f : A -> bool) l :
  (forall x, In x l -> f x = false) -> List.filter f l = [].
Proof.
  induction l as [|x l IH]; intros Hf; simpl; [done|].
  rewrite Hf by (by left). apply IH. intros y Hy. apply Hf. by right.
Qed.

Lemma filter_all {A} (f : A -> bool) l :
  (forall x, In x l -> f x = true) -> List.filter f l = l.
Proof.
  induction l as [|x l IH]; intros Hf; simpl; [done|].
  rewrite Hf by (by left). f_equal. apply IH. intros y Hy. apply Hf. by right.
Qed.

(** The bit [EstimateDifficulty] reads at iteration [(i, j)] is 0 exactly at
    the uncovered positions. *)
Lemma allTaken_bit cov i j :
  j < 8 ->
  (Z.land (shr8 (Z.land (zeroUsed cov !!! i) (oneUsed cov !!! i)) (7 - j)) 1 =? 0)%Z =
  uncovered cov (i * 8 + j).
Proof.
  intros Hj. unfold uncovered. rewrite !BitAt_testbit, land_shr8_1.
  rewrite bit_index_div, bit_index_mod by done. rewrite Z.land_spec.
  destruct (Z.testbit (zeroUsed cov !!! i) _), (Z.testbit (oneUsed cov !!! i) _);
    reflexivity.
Qed.

Lemma EstimateDifficulty_count cov :
  length (zeroUsed cov) = MESSAGE_BYTES ->
  EstimateDifficulty cov = count_uncovered cov.
Proof.
  intros Hlen. unfold EstimateDifficulty, count_uncovered. cbv zeta.
  rewrite (bits_loop_run (fun i _ j difficulty =>
    if (Z.land (shr8 (Z.land (zeroUsed cov !!! i) (oneUsed cov !!! i)) (7 - j)) 1 =? 0)%Z
    then Continue (difficulty + 1)%Z else Continue difficulty)).
  set (idx := fun x : nat * Z * nat => x.1.1 * 8 + x.2).
  set (I := fun (pre : list (nat * Z * nat)) (difficulty : Z) =>
    difficulty = Z.of_nat (length (List.filter (uncovered cov) (idx <$> pre)))).
  loop_invariant (I (bit_items (zeroUsed cov))) (fun _ : Z => False); [| |done].
  - apply (run_outcome _ I); [reflexivity|].
    intros pre [[i b] j] post difficulty Hxs HI. cbn [fst snd].
    pose proof (elem_of_middle (i, b, j) pre post) as Hin. rewrite <- Hxs in Hin.
    apply elem_of_bit_items in Hin as [_ Hj].
    rewrite allTaken_bit by done. unfold I in *.
    rewrite fmap_app, List.filter_app, length_app, Nat2Z.inj_add, <- HI.
    cbn [fmap list_fmap List.filter].
    change (idx (i, b, j)) with (i * 8 + j).
    destruct (uncovered cov (i * 8 + j)); simpl; [done|by rewrite Z.add_0_r].
  - intros difficulty ->. unfold idx. rewrite bit_items_indices, Hlen. reflexivity.
Qed.

(** C8: [EstimateDifficulty] counts the bit indices at which [zeroUsed] and
    [oneUsed] are not both set; it is 0 when both are set everywhere and 256
    when neither bitmap has a bit set. *)
Theorem C8_difficulty_counts_uncovered (cov : Coverage) :
  length (zeroUsed cov) = MESSAGE_BYTES ->
  EstimateDifficulty cov = count_uncovered cov /\
  ((forall k, k < MESSAGE_BITS ->
      BitAt (zeroUsed cov) k = 1%Z /\ BitAt (oneUsed cov) k = 1%Z) ->
   EstimateDifficulty cov = 0%Z) /\
  ((forall k, k < MESSAGE_BITS ->
      BitAt (zeroUsed cov) k = 0%Z /\ BitAt (oneUsed cov) k = 0%Z) ->
   EstimateDifficulty cov = 256%Z).
Proof.
  intros Hlen. rewrite EstimateDifficulty_count by done.
  split; [done|]. unfold count_uncovered. split; intros Hall.
  - rewrite filter_none; [done|].
    intros k Hk%in_seq. unfold uncovered.
    destruct (Hall k ltac:(lia)) as [-> ->]. reflexivity.
  - rewrite filter_all; [by rewrite length_seq|].
    intros k Hk%in_seq. unfold uncovered.
    destruct (Hall k ltac:(lia)) as [-> ->]. reflexivity.
Qed.

(** ** Blocks from byte slices *)

(** [copy] into a zeroed block: the first 32 bytes of the slice, then
    zeros. *)
Lemma BlockFromByteSlice_eq (l : list Z) :
  BlockFromByteSlice l =
  take MESSAGE_BYTES l ++ replicate (MESSAGE_BYTES - length l) 0%Z.
Proof.
  unfold BlockFromByteSlice, copy, Block_zero. cbv zeta.
  rewrite length_replicate, drop_replicate.
  destruct (Nat.le_ge_cases MESSAGE_BYTES (length l)) as [Hle|Hge].
  - rewrite (Nat.min_l _ _ Hle), Nat.sub_diag.
    by rewrite (proj2 (Nat.sub_0_le _ _) Hle).
  - rewrite (Nat.min_r _ _ Hge).
    by rewrite (take_ge l MESSAGE_BYTES Hge), (take_ge l (length l)).
Qed.

(** C10: [BlockFromByteSlice] returns a block for every byte slice, without
    an error: the first 32 bytes of the slice, padded with zero bytes when
    the slice is shorter and cut after byte 31 when it is longer. *)
Theorem C10_BlockFromByteSlice_pads_and_truncates (by_ : list Z) :
  length (BlockFromByteSlice by_) = MESSAGE_BYTES /\
  BlockFromByteSlice by_ =
    take MESSAGE_BYTES by_ ++ replicate (MESSAGE_BYTES - length by_) 0%Z /\
  (forall i, i < MESSAGE_BYTES ->
     (i < length by_ -> BlockFromByteSlice by_ !! i = by_ !! i) /\
     (length by_ <= i -> BlockFromByteSlice by_ !! i = Some 0%Z)) /\
  BlockFromByteSlice by_ = BlockFromByteSlice (take MESSAGE_BYTES by_).
Proof.
  pose proof BlockFromByteSlice_eq as Heq.
  split; [|split; [apply Heq|split]].
  - rewrite Heq, length_app, length_take, length_replicate. lia.
  - intros i Hi. rewrite Heq. split.
    + intros Hil. rewrite lookup_app_l by (rewrite length_take; lia).
      by apply lookup_take_lt.
    + intros Hil. rewrite lookup_app_r by (rewrite length_take; lia).
      apply lookup_replicate_2. rewrite length_take. lia.
  - rewrite !Heq. rewrite take_take, Nat.min_id, length_take.
    destruct (Nat.le_ge_cases MESSAGE_BYTES (length by_)) as [Hle|Hge].
    + by rewrite (Nat.min_l _ _ Hle), Nat.sub_diag, (proj2 (Nat.sub_0_le _ _) Hle).
    + by rewrite (Nat.min_r _ _ Hge).
Qed.

(** Built from bytes, the result is a value of the Go type [Block]. *)
Lemma BlockFromByteSlice_wf (by_ : list Z) :
  Forall is_byte by_ -> wf_Block (BlockFromByteSlice by_).
Proof.
  intros Hby. rewrite BlockFromByteSlice_eq. split.
  - rewrite length_app, length_take, length_replicate. lia.
  - apply Forall_app. split; [by apply Forall_take|].
    apply Forall_replicate. unfold is_byte. lia.
Qed.

(** * Further properties of the scheme *)

(** ** What [Verify] accepts and what [Sign] reads *)

(** X1: [Verify] accepts a signature for a 32-byte message exactly when, at
    every bit index, the block of the signature hashes to the public block
    that the message bit selects. *)
Theorem X1_Verify_accepts_iff (msg : Message) (pub : PublicKey.t) (sig : Signature) :
  length msg = MESSAGE_BYTES ->
  Verify msg pub sig = true <->
  forall k, k < MESSAGE_BITS ->
    Hash (Preimage sig !!! k) =
    (if (BitAt msg k =? 0)%Z then PublicKey.ZeroHash pub !!! k
     else PublicKey.OneHash pub !!! k).
Proof. intros Hlen. by apply Verify_true_iff. Qed.

(** X2: a signature depends on the private key only through the blocks the
    message bits select: two private keys that agree on them give the same
    signature, whatever their other blocks are. *)
Theorem X2_Sign_reads_selected_blocks_only (m : Message) (pri pri' : PrivateKey.t) :
  length m = MESSAGE_BYTES ->
  (forall k, k < MESSAGE_BITS ->
     (BitAt m k = 0%Z -> PrivateKey.ZeroHash pri !!! k = PrivateKey.ZeroHash pri' !!! k) /\
     (BitAt m k = 1%Z -> PrivateKey.OneHash pri !!! k = PrivateKey.OneHash pri' !!! k)) ->
  Sign m pri = Sign m pri'.
Proof.
  intros Hlen Hsame.
  destruct (Sign_inv m pri Hlen) as [Hl _].
  destruct (Sign_inv m pri' Hlen) as [Hl' _].
  assert (Hp : Preimage (Sign m pri) = Preimage (Sign m pri')).
  { apply (list_eq_same_length _ _ MESSAGE_BITS); [done..|].
    intros k x y Hk Hx Hy.
    apply list_lookup_total_correct in Hx, Hy.
    rewrite Sign_lookup in Hx, Hy by done. subst x y.
    unfold selected. destruct (Hsame k Hk) as [H0 H1].
    destruct (BitAt_cases m k) as [Hb|Hb]; rewrite Hb; simpl; auto. }
  destruct (Sign m pri), (Sign m pri'). simpl in Hp. by rewrite Hp.
Qed.

(** ** Coverage of signatures made with one key *)

(** The blocks the coverage loops see when the signatures are those of the
    messages [ms] under [pri]. *)
Lemma signed_block_items pri ms i b :
  Forall (fun m => length m = MESSAGE_BYTES) ms ->
  (i, b) ∈ block_items ((fun m => Sign m pri) <$> ms) <->
  i < MESSAGE_BITS /\
  exists m, m ∈ ms /\
    b = selected m (PrivateKey.ZeroHash pri) (PrivateKey.OneHash pri) i.
Proof.
  intros Hms. rewrite elem_of_block_items. split.
  - intros (sig & (m & -> & Hm)%list_elem_of_fmap & Hb).
    assert (Hlen : length m = MESSAGE_BYTES).
    { by eapply (proj1 (Forall_forall _ _) Hms). }
    destruct (Sign_inv m pri Hlen) as [Hl _].
    assert (Hi : i < MESSAGE_BITS) by (rewrite <- Hl; by eapply lookup_lt_Some).
    split; [done|]. exists m. split; [done|].
    apply list_lookup_total_correct in Hb. by rewrite Sign_lookup in Hb.
  - intros (Hi & m & Hm & ->).
    assert (Hlen : length m = MESSAGE_BYTES).
    { by eapply (proj1 (Forall_forall _ _) Hms). }
    destruct (Sign_inv m pri Hlen) as [Hl _].
    exists (Sign m pri). split; [apply list_elem_of_fmap; eauto|].
    rewrite <- (Sign_lookup m pri i Hlen Hi).
    apply list_lookup_lookup_total_lt. by rewrite Hl.
Qed.

(** Signatures made with the private key of [pub] never make the coverage
    build panic. *)
Lemma signed_coverage_builds pri pub ms :
  derived pri pub ->
  Forall (fun m => length m = MESSAGE_BYTES) ms ->
  exists cov, BuildCoverage pub ((fun m => Sign m pri) <$> ms) = Continue cov.
Proof.
  intros Hpub Hms.
  pose proof (cover_sigs_outcome pub ((fun m => Sign m pri) <$> ms)) as Hout.
  destruct (BuildCoverage pub _) as [cov|r]; [eauto|]. exfalso.
  destruct Hout as [_ ([i b] & Hin & HnZ & HnO)].
  apply signed_block_items in Hin as (Hi & m & _ & ->); [|done].
  destruct (Hpub i Hi) as [HZ HO]. unfold selected in *. simpl in *.
  destruct (BitAt m i =? 0)%Z; congruence.
Qed.

(** Under a public key with distinct halves, the bitmaps record the bits of
    the signed messages: bit [k] of [zeroUsed] is set when some signed
    message has a 0 there, bit [k] of [oneUsed] when some has a 1. *)
Lemma signed_coverage_bits pri pub ms cov k :
  derived pri pub ->
  distinct_halves pub ->
  Forall (fun m => length m = MESSAGE_BYTES) ms ->
  BuildCoverage pub ((fun m => Sign m pri) <$> ms) = Continue cov ->
  k < MESSAGE_BITS ->
  (BitAt (zeroUsed cov) k = 1%Z <-> exists m, m ∈ ms /\ BitAt m k = 0%Z) /\
  (BitAt (oneUsed cov) k = 1%Z <-> exists m, m ∈ ms /\ BitAt m k = 1%Z).
Proof.
  intros Hpub Hdist Hms Hcov Hk.
  destruct (BuildCoverage_inv _ _ _ Hcov) as (_ & (_ & _ & HZ) & (_ & _ & HO)).
  destruct (HZ k Hk) as [HZiff _]. destruct (HO k Hk) as [HOiff _].
  destruct (Hpub k Hk) as [HpZ HpO]. specialize (Hdist k Hk).
  unfold hits_zero, hits_one in *. cbn [fst snd] in *.
  rewrite HZiff, HOiff. split; split.
  - intros (b & (_ & m & Hm & ->)%signed_block_items & Hh); [|done].
    exists m. split; [done|]. unfold selected in Hh.
    destruct (BitAt_cases m k) as [Hb|Hb]; [done|].
    rewrite Hb in Hh. simpl in Hh. congruence.
  - intros (m & Hm & Hb).
    exists (selected m (PrivateKey.ZeroHash pri) (PrivateKey.OneHash pri) k).
    split; [apply signed_block_items; eauto|].
    unfold selected. rewrite Hb. simpl. congruence.
  - intros (b & (_ & m & Hm & ->)%signed_block_items & Hne & Hh); [|done].
    exists m. split; [done|]. unfold selected in Hne.
    destruct (BitAt_cases m k) as [Hb|Hb]; [|done].
    rewrite Hb in Hne. simpl in Hne. congruence.
  - intros (m & Hm & Hb).
    exists (selected m (PrivateKey.ZeroHash pri) (PrivateKey.OneHash pri) k).
    split; [apply signed_block_items; eauto|].
    unfold selected. rewrite Hb. simpl. split; congruence.
Qed.

(** X3: under a key pair whose public halves differ at every index, the
    coverage of the signatures of the messages [ms] is built without panic,
    and a message is forgeable from it exactly when each of its bits agrees
    with the bit of some signed message at the same index. *)
Theorem X3_forgeable_iff_bits_were_signed (pri : PrivateKey.t) (pub : PublicKey.t)
    (ms : list Message) (m : Message) :
  derived pri pub ->
  distinct_halves pub ->
  Forall (fun m' => length m' = MESSAGE_BYTES) ms ->
  wf_Message m ->
  exists cov,
    BuildCoverage pub ((fun m' => Sign m' pri) <$> ms) = Continue cov /\
    (IsForgeable m cov = true <->
     forall k, k < MESSAGE_BITS -> exists m', m' ∈ ms /\ BitAt m' k = BitAt m k).
Proof.
  intros Hpub Hdist Hms Hm.
  destruct (signed_coverage_builds pri pub ms Hpub Hms) as [cov Hcov].
  exists cov. split; [done|].
  rewrite IsForgeable_bits by done.
  split; intros Hall k Hk; specialize (Hall k Hk);
    destruct (signed_coverage_bits pri pub ms cov k Hpub Hdist Hms Hcov Hk) as [HZ HO];
    unfold bit_covered in *.
  - destruct (BitAt_cases m k) as [Hb|Hb]; rewrite Hb in *; simpl in Hall;
      apply Z.eqb_eq in Hall; [by apply HZ|by apply HO].
  - destruct (BitAt_cases m k) as [Hb|Hb]; rewrite Hb in *; simpl;
      apply Z.eqb_eq; [by apply HZ|by apply HO].
Qed.

(** ** More signatures *)

Lemma BuildCoverage_app_monotone pub sigslice more cov cov' :
  BuildCoverage pub sigslice = Continue cov ->
  BuildCoverage pub (sigslice ++ more) = Continue cov' ->
  forall k, k < MESSAGE_BITS ->
    (BitAt (zeroUsed cov) k = 1%Z -> BitAt (zeroUsed cov') k = 1%Z) /\
    (BitAt (oneUsed cov) k = 1%Z -> BitAt (oneUsed cov') k = 1%Z).
Proof.
  intros Hcov Hcov'.
  destruct (BuildCoverage_inv _ _ _ Hcov) as (_ & (HlZ & _) & (HlO & _)).
  unfold BuildCoverage in *. rewrite cover_sigs_app, Hcov in Hcov'.
  by eapply cover_sigs_monotone.
Qed.

(** X4: a message that is forgeable from the coverage of some signatures
    stays forgeable when further signatures are processed. *)
Theorem X4_forgeable_stays_forgeable (pub : PublicKey.t)
    (sigslice more : list Signature) (cov cov' : Coverage) (m : Message) :
  BuildCoverage pub sigslice = Continue cov ->
  BuildCoverage pub (sigslice ++ more) = Continue cov' ->
  wf_Message m ->
  IsForgeable m cov = true ->
  IsForgeable m cov' = true.
Proof.
  intros Hcov Hcov' Hm. rewrite !IsForgeable_bits by done.
  intros Hall k Hk. specialize (Hall k Hk).
  destruct (BuildCoverage_app_monotone _ _ _ _ _ Hcov Hcov' k Hk) as [HZ HO].
  unfold bit_covered in *.
  destruct (BitAt m k =? 0)%Z; apply Z.eqb_eq; apply Z.eqb_eq in Hall; auto.
Qed.

Lemma filter_length_mono {A} (f g : A -> bool) l :
  (forall x, In x l -> f x = true -> g x = true) ->
  length (List.filter f l) <= length (List.filter g l).
Proof.
  induction l as [|x l IH]; intros Hfg; simpl; [done|].
  assert (IH' : length (List.filter f l) <= length (List.filter g l)).
  { apply IH. intros y Hy. apply Hfg. by right. }
  destruct (f x) eqn:Hf.
  - rewrite (Hfg x (or_introl eq_refl) Hf). simpl. lia.
  - destruct (g x); simpl; lia.
Qed.

(** X5: the difficulty estimate lies between 0 and 256, and processing
    further signatures never raises it. *)
Theorem X5_difficulty_bounded_and_antitone (pub : PublicKey.t)
    (sigslice more : list Signature) (cov cov' : Coverage) :
  BuildCoverage pub sigslice = Continue cov ->
  BuildCoverage pub (sigslice ++ more) = Continue cov' ->
  (0 <= EstimateDifficulty cov' <= EstimateDifficulty cov)%Z /\
  (EstimateDifficulty cov <= 256)%Z.
Proof.
  intros Hcov Hcov'.
  destruct (BuildCoverage_inv _ _ _ Hcov) as (_ & (HlZ & _) & _).
  destruct (BuildCoverage_inv _ _ _ Hcov') as (_ & (HlZ' & _) & _).
  rewrite !EstimateDifficulty_count by done. unfold count_uncovered.
  split; [split; [lia|]|].
  - apply inj_le, filter_length_mono. intros k Hin%in_seq Hunc.
    destruct (BuildCoverage_app_monotone _ _ _ _ _ Hcov Hcov' k ltac:(lia)) as [HZ HO].
    unfold uncovered in *. apply negb_true_iff, andb_false_iff in Hunc.
    apply negb_true_iff, andb_false_iff.
    destruct Hunc as [Hunc%Z.eqb_neq|Hunc%Z.eqb_neq]; [left|right];
      apply Z.eqb_neq; auto.
  - pose proof (List.filter_length_le (uncovered cov) (seq 0 MESSAGE_BITS)) as Hle.
    rewrite length_seq in Hle. sizes. lia.
Qed.

(** ** The order of the signatures *)

Lemma block_items_same_elements sigs sigs' x :
  (forall sig, sig ∈ sigs <-> sig ∈ sigs') ->
  x ∈ block_items sigs -> x ∈ block_items sigs'.
Proof.
  intros Hsame. destruct x as [i b].
  rewrite !elem_of_block_items. intros (sig & Hsig & Hb).
  exists sig. split; [by apply Hsame|done].
Qed.

(** Bitmaps are decided by which signatures are processed, not by their
    order or number of occurrences. *)
Lemma coverage_bits_same_elements pub sigs sigs' cov cov' k :
  (forall sig, sig ∈ sigs <-> sig ∈ sigs') ->
  BuildCoverage pub sigs = Continue cov ->
  BuildCoverage pub sigs' = Continue cov' ->
  k < MESSAGE_BITS ->
  (BitAt (zeroUsed cov) k = 1%Z <-> BitAt (zeroUsed cov') k = 1%Z) /\
  (BitAt (oneUsed cov) k = 1%Z <-> BitAt (oneUsed cov') k = 1%Z).
Proof using Sum256.
  intros Hsame Hcov Hcov' Hk.
  destruct (BuildCoverage_inv _ _ _ Hcov) as (_ & (_ & _ & HZ) & (_ & _ & HO)).
  destruct (BuildCoverage_inv _ _ _ Hcov') as (_ & (_ & _ & HZ') & (_ & _ & HO')).
  destruct (HZ k Hk) as [-> _]. destruct (HO k Hk) as [-> _].
  destruct (HZ' k Hk) as [-> _]. destruct (HO' k Hk) as [-> _].
  split; split; intros (b & Hin & Hh); exists b; (split; [|done]);
    (eapply block_items_same_elements; [|exact Hin]); intros sig;
    specialize (Hsame sig); destruct Hsame; split; assumption.
Qed.

Lemma BitAt_1_eq a b k :
  (BitAt a k = 1%Z <-> BitAt b k = 1%Z) -> (BitAt a k =? 1)%Z = (BitAt b k =? 1)%Z.
Proof.
  intros Hiff. apply eq_true_iff_eq. by rewrite !Z.eqb_eq.
Qed.

(** X6: the order in which the signatures are processed does not matter to
    the outcome: a permutation of a list that builds without panic builds
    too, with the same bits set in both bitmaps, the same forgeable messages
    and the same difficulty. *)
Theorem X6_coverage_order_irrelevant (pub : PublicKey.t)
    (sigslice sigslice' : list Signature) (cov : Coverage) :
  sigslice ≡ₚ sigslice' ->
  BuildCoverage pub sigslice = Continue cov ->
  exists cov',
    BuildCoverage pub sigslice' = Continue cov' /\
    (forall k, k < MESSAGE_BITS ->
       BitAt (zeroUsed cov') k = BitAt (zeroUsed cov) k /\
       BitAt (oneUsed cov') k = BitAt (oneUsed cov) k) /\
    (forall m, wf_Message m -> IsForgeable m cov' = IsForgeable m cov) /\
    EstimateDifficulty cov' = EstimateDifficulty cov.
Proof using Sum256.
  intros Hperm Hcov.
  assert (Hsame : forall sig, sig ∈ sigslice <-> sig ∈ sigslice').
  { intros sig. by rewrite Hperm. }
  pose proof (cover_sigs_outcome pub sigslice') as Hout.
  destruct (BuildCoverage pub sigslice') as [cov'|r] eqn:Hcov'; simpl in Hout.
  - exists cov'. split; [done|].
    assert (Hbits : forall k, k < MESSAGE_BITS ->
              (BitAt (zeroUsed cov') k =? 1)%Z = (BitAt (zeroUsed cov) k =? 1)%Z /\
              (BitAt (oneUsed cov') k =? 1)%Z = (BitAt (oneUsed cov) k =? 1)%Z).
    { intros k Hk.
      destruct (coverage_bits_same_elements pub _ _ _ _ k Hsame Hcov Hcov' Hk) as [HZ HO].
      split; apply BitAt_1_eq; by symmetry. }
    split; [|split].
    + intros k Hk. destruct (Hbits k Hk) as [HZ HO].
      split.
      * destruct (BitAt_cases (zeroUsed cov') k) as [H1|H1],
          (BitAt_cases (zeroUsed cov) k) as [H2|H2];
          rewrite H1, H2 in *; done.
      * destruct (BitAt_cases (oneUsed cov') k) as [H1|H1],
          (BitAt_cases (oneUsed cov) k) as [H2|H2];
          rewrite H1, H2 in *; done.
    + intros m Hm. apply eq_true_iff_eq. rewrite !IsForgeable_bits by done.
      split; intros Hall k Hk; specialize (Hall k Hk);
        destruct (Hbits k Hk) as [HZ HO]; unfold bit_covered in *;
        destruct (BitAt m k =? 0)%Z; congruence.
    + destruct (BuildCoverage_inv _ _ _ Hcov) as (_ & (HlZ & _) & _).
      destruct Hout as (_ & (HlZ' & _) & _).
      rewrite !EstimateDifficulty_count by done. unfold count_uncovered.
      do 2 f_equal. apply List.filter_ext_in. intros k Hk%in_seq.
      unfold uncovered. destruct (Hbits k ltac:(lia)) as [-> ->]. done.
  - exfalso. destruct Hout as [_ (x & Hin & HnZ & HnO)].
    destruct (BuildCoverage_inv _ _ _ Hcov) as (Hall & _).
    assert (Hin' : x ∈ block_items sigslice).
    { eapply block_items_same_elements; [|exact Hin]. intros sig.
      specialize (Hsame sig). destruct Hsame. split; assumption. }
    destruct (Hall x Hin') as [Hz|[_ Ho]]; unfold hits_zero in *; congruence.
Qed.

(** * The hex decoders *)

Lemma BlockFromByteSlice_length (l : list Z) :
  length (BlockFromByteSlice l) = MESSAGE_BYTES.
Proof.
  rewrite BlockFromByteSlice_eq, length_app, length_take, length_replicate. lia.
Qed.

(** A slice of exactly 32 bytes is the block. *)
Lemma BlockFromByteSlice_id (b : Block) :
  length b = MESSAGE_BYTES -> BlockFromByteSlice b = b.
Proof.
  intros Hlen. rewrite BlockFromByteSlice_eq, Hlen, Nat.sub_diag.
  rewrite <- Hlen, firstn_all. apply app_nil_r.
Qed.

(** The block that the decoders cut out of the decoded bytes for place [j]. *)
Lemma block_at_S (buf : list Z) j :
  BlockFromByteSlice (take 32 (drop (32 * j) (drop 32 buf))) =
  BlockFromByteSlice (take 32 (drop (32 * S j) buf)).
Proof. rewrite drop_drop. do 3 f_equal. lia. Qed.

(** A loop that fills an array of blocks from a buffer, 32 bytes at a time:
    the loops of [HexToPubkey] and [HexToSignature].  [get] reads the array
    out of the loop state, [upd] writes one place of it, and [other] is a
    part of the state that [upd] leaves alone. *)
Lemma hex_fill {P T R} (get : P -> list Block) (upd : nat -> Block -> P -> P)
    (other : P -> T) :
  (forall i b p, get (upd i b p) = <[i := b]> (get p)) ->
  (forall i b p, other (upd i b p) = other p) ->
  forall (l : list Block) i p buf,
    i + length l <= length (get p) ->
    exists p',
      for_range (R := R) i l (fun k _ '(p, buf) =>
        let '(next, buf) := Buffer_Next 32 buf in
        Continue (upd k (BlockFromByteSlice next) p, buf)) (p, buf) =
      Continue (p', drop (32 * length l) buf) /\
      get p' =
        take i (get p) ++
        ((fun j => BlockFromByteSlice (take 32 (drop (32 * j) buf))) <$> seq 0 (length l)) ++
        drop (i + length l) (get p) /\
      other p' = other p.
Proof.
  intros Hget Hother. induction l as [|x l IH]; intros i p buf Hlen.
  - exists p. cbn [for_range length]. rewrite Nat.mul_0_r, Nat.add_0_r, drop_0.
    split; [done|]. split; [|done]. cbn [seq fmap list_fmap app].
    by rewrite take_drop.
  - cbn [for_range length Buffer_Next] in *.
    destruct (IH (S i) (upd i (BlockFromByteSlice (take 32 buf)) p) (drop 32 buf))
      as (p' & Hrun & Hget' & Hother').
    { rewrite Hget, length_insert. lia. }
    exists p'. rewrite Hrun, drop_drop.
    replace (32 * S (length l)) with (32 + 32 * length l) by lia. split; [done|].
    split; [|by rewrite Hother', Hother].
    rewrite Hget', Hget.
    rewrite (take_S_r _ _ (BlockFromByteSlice (take 32 buf)))
      by (apply list_lookup_insert_eq; lia).
    rewrite take_insert_ge, drop_insert_lt by lia.
    rewrite <- app_assoc. f_equal. cbn [seq fmap list_fmap app].
    rewrite Nat.mul_0_r, drop_0. f_equal.
    replace (S i + length l) with (i + S (length l)) by lia. f_equal.
    rewrite <- fmap_S_seq, <- list_fmap_compose.
    apply list_fmap_ext. intros _ j _. apply block_at_S.
Qed.

Lemma fill_whole (f : nat -> Block) (arr : list Block) n :
  length arr = n ->
  take 0 arr ++ (f <$> seq 0 n) ++ drop (0 + n) arr = f <$> seq 0 n.
Proof.
  intros <-. by rewrite take_0, Nat.add_0_l, drop_all, app_nil_r.
Qed.

(** What [HexToPubkey] returns when the string has the right length and
    decodes to [bts]. *)
Lemma HexToPubkey_decoded s bts :
  Z.of_nat (String.length s) = 32768%Z ->
  DecodeString s = (bts, None) ->
  HexToPubkey s =
  (PublicKey.Build
     ((fun j => BlockFromByteSlice (take 32 (drop (32 * j) bts))) <$> seq 0 MESSAGE_BITS)
     ((fun j => BlockFromByteSlice (take 32 (drop (32 * (MESSAGE_BITS + j)) bts)))
        <$> seq 0 MESSAGE_BITS),
   None).
Proof.
  intros Hlen Hdec. unfold HexToPubkey. cbv zeta.
  rewrite Hlen, Hdec. change (negb (32768 =? 256 * 2 * 64)%Z) with false. cbv iota.
  destruct (hex_fill (R := PublicKey.t * option error)
              PublicKey.ZeroHash
              (fun i b p => PublicKey.Build (<[i := b]> (PublicKey.ZeroHash p)) (PublicKey.OneHash p))
              PublicKey.OneHash (fun _ _ _ => eq_refl) (fun _ _ _ => eq_refl)
              Blocks_zero 0 (PublicKey.Build Blocks_zero Blocks_zero) bts)
    as (p1 & Hrun1 & HZ1 & HO1); [done|].
  cbv beta in Hrun1. cbn [PublicKey.ZeroHash PublicKey.OneHash]. rewrite Hrun1. cbn [fst].
  rewrite HO1. cbn [PublicKey.OneHash].
  destruct (hex_fill (R := PublicKey.t * option error)
              PublicKey.OneHash
              (fun i b p => PublicKey.Build (PublicKey.ZeroHash p) (<[i := b]> (PublicKey.OneHash p)))
              PublicKey.ZeroHash (fun _ _ _ => eq_refl) (fun _ _ _ => eq_refl)
              Blocks_zero 0 p1 (drop (32 * length Blocks_zero) bts))
    as (p2 & Hrun2 & HO2 & HZ2); [by rewrite HO1|].
  cbv beta in Hrun2. rewrite Hrun2. cbn [returns fst].
  rewrite HO1 in HO2.
  rewrite fill_whole in HZ1, HO2 by done.
  destruct p2 as [zs os]. cbn [PublicKey.ZeroHash PublicKey.OneHash] in *.
  subst zs os. rewrite HZ1.
  change (length Blocks_zero) with MESSAGE_BITS. do 2 f_equal.
  apply list_fmap_ext. intros _ j _. rewrite drop_drop. do 3 f_equal. lia.
Qed.

Lemma HexToSignature_decoded s bts :
  Z.of_nat (String.length s) = 16384%Z ->
  DecodeString s = (bts, None) ->
  HexToSignature s =
  ({| Preimage :=
        (fun j => BlockFromByteSlice (take 32 (drop (32 * j) bts))) <$> seq 0 MESSAGE_BITS |},
   None).
Proof.
  intros Hlen Hdec. unfold HexToSignature. cbv zeta.
  rewrite Hlen, Hdec. change (negb (16384 =? 256 * 64)%Z) with false. cbv iota.
  destruct (hex_fill (R := Signature * option error)
              Preimage
              (fun i b sig => {| Preimage := <[i := b]> (Preimage sig) |})
              (fun _ => tt) (fun _ _ _ => eq_refl) (fun _ _ _ => eq_refl)
              Blocks_zero 0 {| Preimage := Blocks_zero |} bts)
    as (sig & Hrun & Hsig & _); [done|].
  cbv beta in Hrun. cbn [Preimage]. rewrite Hrun. cbn [returns fst].
  rewrite fill_whole in Hsig by done.
  destruct sig as [blocks]. cbn [Preimage] in Hsig. by subst blocks.
Qed.

Lemma fmap_seq_eq (f : nat -> Block) (l : list Block) n :
  length l = n -> (forall i, i < n -> f i = l !!! i) -> f <$> seq 0 n = l.
Proof.
  intros Hlen Hf. apply (list_eq_same_length _ _ n);
    [done|by rewrite length_fmap, length_seq|].
  intros i x y Hi Hx Hy.
  rewrite list_lookup_fmap, lookup_seq_lt in Hx by done. simpl in Hx.
  apply list_lookup_total_correct in Hy. rewrite <- Hy, <- Hf by done. congruence.
Qed.

Lemma fmap_seq_lookup (f : nat -> Block) n i :
  i < n -> (f <$> seq 0 n) !!! i = f i.
Proof.
  intros Hi. apply list_lookup_total_correct.
  by rewrite list_lookup_fmap, lookup_seq_lt.
Qed.

Lemma wf_blocks_fmap_seq (g : nat -> list Z) :
  wf_blocks ((fun j => BlockFromByteSlice (g j)) <$> seq 0 MESSAGE_BITS).
Proof.
  split; [by rewrite length_fmap, length_seq|].
  apply Forall_fmap, Forall_forall. intros j _. apply BlockFromByteSlice_length.
Qed.

(** Blocks laid end to end are found again 32 bytes at a time. *)
Lemma concat_block_at (blocks : list Block) rest j :
  Forall (fun b => length b = MESSAGE_BYTES) blocks ->
  j < length blocks ->
  take 32 (drop (32 * j) (concat blocks ++ rest)) = blocks !!! j.
Proof.
  intros Hall. revert j. induction Hall as [|b bs Hb Hbs IH]; intros j Hj; [simpl in Hj; lia|].
  cbn [concat]. rewrite <- app_assoc. destruct j as [|j].
  - rewrite Nat.mul_0_r, drop_0. by apply take_app_length'.
  - replace (32 * S j) with (32 + 32 * j) by lia.
    rewrite <- drop_drop, drop_app_length' by done.
    rewrite IH by (simpl in Hj; lia). done.
Qed.

Lemma concat_drop_all (blocks : list Block) rest :
  Forall (fun b => length b = MESSAGE_BYTES) blocks ->
  drop (32 * length blocks) (concat blocks ++ rest) = rest.
Proof.
  induction 1 as [|b bs Hb Hbs IH]; [done|].
  cbn [concat length]. rewrite <- app_assoc.
  replace (32 * S (length bs)) with (32 + 32 * length bs) by lia.
  by rewrite <- drop_drop, drop_app_length'.
Qed.

(** X7: [HexToPubkey] on every string.  A string whose length is not 32768
    gives the length error, and one that [hex.DecodeString] refuses gives
    that error, both with the zero-valued key; otherwise the error is [nil],
    the key has 256 blocks of 32 bytes in each half, and block [i] of the
    zero half is cut from the decoded bytes at offset [32*i], block [i] of
    the one half at offset [32*(256+i)]. *)
Theorem X7_HexToPubkey_cases (s : string) :
  (Z.of_nat (String.length s) <> 32768%Z ->
   HexToPubkey s =
     (PublicKey.Build Blocks_zero Blocks_zero, Some (length_error s 32768))) /\
  (Z.of_nat (String.length s) = 32768%Z ->
   forall bts e, DecodeString s = (bts, Some e) ->
   HexToPubkey s = (PublicKey.Build Blocks_zero Blocks_zero, Some e)) /\
  (Z.of_nat (String.length s) = 32768%Z ->
   forall bts, DecodeString s = (bts, None) ->
   exists pub, HexToPubkey s = (pub, None) /\
     wf_PublicKey pub /\
     forall i, i < MESSAGE_BITS ->
       PublicKey.ZeroHash pub !!! i =
         BlockFromByteSlice (take 32 (drop (32 * i) bts)) /\
       PublicKey.OneHash pub !!! i =
         BlockFromByteSlice (take 32 (drop (32 * (MESSAGE_BITS + i)) bts))).
Proof.
  split; [|split].
  - intros Hne. unfold HexToPubkey. cbv zeta.
    change (256 * 2 * 64)%Z with 32768%Z.
    by rewrite (proj2 (Z.eqb_neq _ _) Hne).
  - intros Hlen bts e Hdec. unfold HexToPubkey. cbv zeta.
    by rewrite Hlen, Hdec.
  - intros Hlen bts Hdec. eexists. split; [by apply HexToPubkey_decoded|].
    split; [split; apply wf_blocks_fmap_seq|].
    intros i Hi. cbn [PublicKey.ZeroHash PublicKey.OneHash].
    by rewrite !fmap_seq_lookup.
Qed.

(** X8: [HexToPubkey] undoes the layout of a key: when the string decodes to
    the blocks of a key laid end to end, zero half first, the key comes
    back. *)
Theorem X8_HexToPubkey_round_trip (pub : PublicKey.t) (s : string) :
  wf_PublicKey pub ->
  Z.of_nat (String.length s) = 32768%Z ->
  DecodeString s = (PublicKey_bytes pub, None) ->
  HexToPubkey s = (pub, None).
Proof.
  intros [[HlZ HZ] [HlO HO]] Hlen Hdec.
  rewrite (HexToPubkey_decoded s _ Hlen Hdec).
  destruct pub as [zs os]. cbn [PublicKey.ZeroHash PublicKey.OneHash] in *.
  unfold PublicKey_bytes. cbn [PublicKey.ZeroHash PublicKey.OneHash].
  do 2 f_equal.
  - apply fmap_seq_eq; [done|]. intros i Hi.
    rewrite concat_block_at by (done || by rewrite HlZ).
    apply BlockFromByteSlice_id.
    eapply (proj1 (Forall_lookup _ _) HZ i).
    apply list_lookup_lookup_total_lt. by rewrite HlZ.
  - apply fmap_seq_eq; [done|]. intros i Hi.
    replace (32 * (MESSAGE_BITS + i)) with (32 * length zs + 32 * i) by (rewrite HlZ; lia).
    rewrite <- drop_drop, concat_drop_all by done.
    rewrite <- (app_nil_r (concat os)).
    rewrite concat_block_at by (done || by rewrite HlO).
    apply BlockFromByteSlice_id.
    eapply (proj1 (Forall_lookup _ _) HO i).
    apply list_lookup_lookup_total_lt. by rewrite HlO.
Qed.

(** X9: [HexToSignature] on every string, as [HexToPubkey] with a single
    row: the expected length is 16384, and block [i] is cut from the decoded
    bytes at offset [32*i]. *)
Theorem X9_HexToSignature_cases (s : string) :
  (Z.of_nat (String.length s) <> 16384%Z ->
   HexToSignature s = ({| Preimage := Blocks_zero |}, Some (length_error s 16384))) /\
  (Z.of_nat (String.length s) = 16384%Z ->
   forall bts e, DecodeString s = (bts, Some e) ->
   HexToSignature s = ({| Preimage := Blocks_zero |}, Some e)) /\
  (Z.of_nat (String.length s) = 16384%Z ->
   forall bts, DecodeString s = (bts, None) ->
   exists sig, HexToSignature s = (sig, None) /\
     wf_Signature sig /\
     forall i, i < MESSAGE_BITS ->
       Preimage sig !!! i = BlockFromByteSlice (take 32 (drop (32 * i) bts))).
Proof.
  split; [|split].
  - intros Hne. unfold HexToSignature. cbv zeta.
    change (256 * 64)%Z with 16384%Z.
    by rewrite (proj2 (Z.eqb_neq _ _) Hne).
  - intros Hlen bts e Hdec. unfold HexToSignature. cbv zeta.
    by rewrite Hlen, Hdec.
  - intros Hlen bts Hdec. eexists. split; [by apply HexToSignature_decoded|].
    split; [apply wf_blocks_fmap_seq|].
    intros i Hi. cbn [Preimage]. by rewrite fmap_seq_lookup.
Qed.

(** X10: [HexToSignature] undoes the layout of a signature: when the string
    decodes to the 256 blocks of a signature laid end to end, the signature
    comes back. *)
Theorem X10_HexToSignature_round_trip (sig : Signature) (s : string) :
  wf_Signature sig ->
  Z.of_nat (String.length s) = 16384%Z ->
  DecodeString s = (concat (Preimage sig), None) ->
  HexToSignature s = (sig, None).
Proof.
  intros [Hl Hall] Hlen Hdec.
  rewrite (HexToSignature_decoded s _ Hlen Hdec).
  destruct sig as [blocks]. cbn [Preimage] in *. do 2 f_equal.
  apply fmap_seq_eq; [done|]. intros i Hi.
  rewrite <- (app_nil_r (concat blocks)).
  rewrite concat_block_at by (done || by rewrite Hl).
  apply BlockFromByteSlice_id.
  eapply (proj1 (Forall_lookup _ _) Hall i).
  apply list_lookup_lookup_total_lt. by rewrite Hl.
Qed.

(** * Key generation *)

Lemma reads_length n w blocks w' :
  reads n w = (blocks, None, w') -> length blocks = n.
Proof.
  revert w blocks w'. induction n as [|n IH]; intros w blocks w'; cbn [reads].
  - by intros [= <- _].
  - destruct (rand_Read _ w) as [[block [e|]] w1]; [done|].
    destruct (reads n w1) as [[blocks1 err1] w2] eqn:Hr.
    intros [= <- -> <-]. cbn [length]. f_equal. by eapply IH.
Qed.

(** The loop of [ReadHash] from index [i] on: the blocks of [n] successive
    reads fill the places [i .. i+n), unless a read fails. *)
Lemma ReadHash_loop n i (hash : list Block) w :
  i + n <= length hash ->
  for_count (R := list Block * option error * World) i n (fun i '(hash, w) =>
    let block := replicate MESSAGE_BYTES 0%Z in
    let '(block, err, w) := rand_Read block w in
    match err with
    | Some e => Break (Blocks_zero, Some e, w)
    | None => Continue (<[i := BlockFromByteSlice block]> hash, w)
    end) (hash, w) =
  match reads n w with
  | (_, Some e, w') => Break (Blocks_zero, Some e, w')
  | (blocks, None, w') =>
      Continue (take i hash ++ (BlockFromByteSlice <$> blocks) ++ drop (i + n) hash, w')
  end.
Proof.
  revert i hash w. induction n as [|n IH]; intros i hash w Hlen; cbn [for_count reads].
  - rewrite Nat.add_0_r. cbn [fmap list_fmap app]. by rewrite take_drop.
  - cbv zeta. destruct (rand_Read _ w) as [[block [e|]] w1]; [done|].
    rewrite IH by (rewrite length_insert; lia).
    destruct (reads n w1) as [[blocks [e|]] w2]; [done|].
    do 2 f_equal.
    rewrite (take_S_r _ _ (BlockFromByteSlice block))
      by (apply list_lookup_insert_eq; lia).
    rewrite take_insert_ge, drop_insert_lt by lia.
    rewrite <- app_assoc. cbn [fmap list_fmap app].
    by replace (S i + n) with (i + S n) by lia.
Qed.

Lemma ReadHash_reads w :
  ReadHash w =
  match reads MESSAGE_BITS w with
  | (_, Some e, w') => (Blocks_zero, Some e, w')
  | (blocks, None, w') => (BlockFromByteSlice <$> blocks, None, w')
  end.
Proof.
  unfold ReadHash, for_lt. cbv zeta. rewrite ReadHash_loop by done.
  destruct (reads MESSAGE_BITS w) as [[blocks [e|]] w']; [done|].
  cbn [returns fst snd]. rewrite take_0, Nat.add_0_l.
  change (drop MESSAGE_BITS Blocks_zero) with (@nil Block).
  by rewrite app_nil_r.
Qed.

(** X11: [GenerateKey] asks the random source for 512 blocks of 32 bytes,
    one after the other: the first 256 become the zero half of the private
    key, the next 256 the one half, and the public key is derived from them.
    At the first read that fails it stops reading and returns that error
    with the zero-valued keys. *)
Theorem X11_GenerateKey_reads_in_order (w : World) :
  GenerateKey w =
  match reads MESSAGE_BITS w with
  | (_, Some e, w1) =>
      (PrivateKey.Build Blocks_zero Blocks_zero,
       PublicKey.Build Blocks_zero Blocks_zero, Some e, w1)
  | (zeros, None, w1) =>
      match reads MESSAGE_BITS w1 with
      | (_, Some e, w2) =>
          (PrivateKey.Build Blocks_zero Blocks_zero,
           PublicKey.Build Blocks_zero Blocks_zero, Some e, w2)
      | (ones, None, w2) =>
          let pri := PrivateKey.Build (BlockFromByteSlice <$> zeros)
                                      (BlockFromByteSlice <$> ones) in
          (pri, GetPublicKey pri, None, w2)
      end
  end.
Proof.
  unfold GenerateKey. cbv zeta. rewrite ReadHash_reads.
  destruct (reads MESSAGE_BITS w) as [[zeros [e|]] w1]; [done|].
  rewrite ReadHash_reads.
  by destruct (reads MESSAGE_BITS w1) as [[ones [e|]] w2].
Qed.

(** X12: the keys of a [GenerateKey] that returns no error are good: the
    private key has 256 blocks of 32 bytes in each half, the public key is
    derived from it, and every signature made with the private key verifies
    against the public key. *)
Theorem X12_GenerateKey_keys_verify (w w' : World) (pri : PrivateKey.t)
    (pub : PublicKey.t) :
  GenerateKey w = (pri, pub, None, w') ->
  wf_blocks (PrivateKey.ZeroHash pri) /\
  wf_blocks (PrivateKey.OneHash pri) /\
  derived pri pub /\
  forall m, length m = MESSAGE_BYTES -> Verify m pub (Sign m pri) = true.
Proof.
  unfold GenerateKey. cbv zeta. rewrite ReadHash_reads.
  destruct (reads MESSAGE_BITS w) as [[zeros [e|]] w1] eqn:Hz; [done|].
  rewrite ReadHash_reads.
  destruct (reads MESSAGE_BITS w1) as [[ones [e|]] w2] eqn:Ho; [done|].
  intros [= <- <- <-]. cbn [PrivateKey.ZeroHash PrivateKey.OneHash].
  apply reads_length in Hz, Ho.
  assert (Hwf : forall blocks : list (list Z), length blocks = MESSAGE_BITS ->
            wf_blocks (BlockFromByteSlice <$> blocks)).
  { intros blocks Hl. split; [by rewrite length_fmap|].
    apply Forall_fmap, Forall_forall. intros b _. apply BlockFromByteSlice_length. }
  assert (Hd : derived
            (PrivateKey.Build (BlockFromByteSlice <$> zeros) (BlockFromByteSlice <$> ones))
            (GetPublicKey
               (PrivateKey.Build (BlockFromByteSlice <$> zeros) (BlockFromByteSlice <$> ones)))).
  { apply GetPublicKey_derived. split; cbn; by rewrite length_fmap. }
  split; [by apply Hwf|]. split; [by apply Hwf|]. split; [exact Hd|].
  intros m Hm. apply Verify_true_iff; [done|].
  intros k Hk. rewrite Sign_lookup by done.
  destruct (Hd k Hk) as [HZ HO].
  unfold selected. destruct (BitAt m k =? 0)%Z; congruence.
Qed.

(** * The search of [Forge] *)

Lemma candidate_nonempty i : String.eqb (candidate i) "" = false.
Proof. reflexivity. Qed.

Lemma to_int_nonnil z :
  Z.to_int z <> Decimal.Pos Decimal.Nil /\ Z.to_int z <> Decimal.Neg Decimal.Nil.
Proof.
  destruct z as [|p|p]; cbn; split; try discriminate;
    intros [= H]; by apply (DecimalPos.Unsigned.to_uint_nonnil p).
Qed.

Lemma append_inj_r (p s t : string) : String.append p s = String.append p t -> s = t.
Proof. induction p as [|c p IH]; simpl; [done|]. intros [= H]. auto. Qed.

(** X13: the candidate strings of the search are never empty, which is the
    value the channel carries for "not forgeable", and different counters
    give different candidates. *)
Theorem X13_candidates_distinct_nonempty (i j : Z) :
  candidate i <> ""%string /\ (candidate i = candidate j -> i = j).
Proof.
  split; [discriminate|].
  intros Heq%append_inj_r.
  apply DecimalZ.to_int_inj.
  destruct (to_int_nonnil i) as [Hi1 Hi2], (to_int_nonnil j) as [Hj1 Hj2].
  pose proof (NilZero.isi _ Hi1 Hi2) as Hsi.
  pose proof (NilZero.isi _ Hj1 Hj2) as Hsj.
  rewrite Heq in Hsi. congruence.
Qed.

(** The consumer returns for the first result that is not empty. *)
Lemma Forge_consume_find cov received :
  Forge_consume cov received =
  match List.find (fun r => negb (String.eqb r "")) received with
  | Some r => Returns r (forgeSig (GetMessageFromString r) cov)
  | None => Searching
  end.
Proof.
  unfold Forge_consume. generalize 0.
  induction received as [|r received IH]; intros n; cbn [for_range List.find]; [done|].
  destruct (String.eqb r ""); cbn [negb returns]; [apply IH|done].
Qed.

(** Among the results of the candidates, the first that is not empty is the
    first candidate that passes the predicate. *)
Lemma find_received cov arrivals :
  List.find (fun r => negb (String.eqb r ""))
    ((fun i => isForgeable (zeroUsed cov) (oneUsed cov) (candidate i)) <$> arrivals) =
  candidate <$> List.find (forgeable_candidate cov) arrivals.
Proof.
  induction arrivals as [|i arrivals IH]; [done|].
  cbn [fmap list_fmap List.find]. rewrite isForgeable_output.
  unfold forgeable_candidate at 1.
  destruct (IsForgeable (GetMessageFromString (candidate i)) cov).
  - by rewrite candidate_nonempty.
  - exact IH.
Qed.

(** A digest that passes the predicate verifies with the signature assembled
    for it. *)
Lemma forgeable_assembly_verifies pub sigslice cov m :
  BuildCoverage pub sigslice = Continue cov ->
  wf_Message m ->
  IsForgeable m cov = true ->
  Verify m pub (forgeSig m cov) = true.
Proof.
  intros Hcov%BuildCoverage_inv Hm Hyes.
  apply Verify_true_iff; [apply Hm|].
  intros k Hk. rewrite forgeSig_lookup by done.
  eapply covered_bit_verifies; [done..|].
  by apply IsForgeable_bits.
Qed.

(** X14: once the key and the four signatures are decoded and the coverage
    is built, [Forge] returns for the first candidate received whose digest
    passes the forgeability predicate, with the signature assembled for that
    digest; while no such candidate has been received it keeps searching.
    It neither returns a candidate that fails the predicate nor passes over
    one that satisfies it. *)
Theorem X14_Forge_returns_first_forgeable (pub : PublicKey.t)
    (sig1 sig2 sig3 sig4 : Signature) (cov : Coverage) (arrivals : list Z) :
  HexToPubkey hexPubkey1 = (pub, None) ->
  HexToSignature hexSignature1 = (sig1, None) ->
  HexToSignature hexSignature2 = (sig2, None) ->
  HexToSignature hexSignature3 = (sig3, None) ->
  HexToSignature hexSignature4 = (sig4, None) ->
  BuildCoverage pub [sig1; sig2; sig3; sig4] = Continue cov ->
  Forge arrivals =
  match List.find (forgeable_candidate cov) arrivals with
  | Some i =>
      Returns (candidate i) (forgeSig (GetMessageFromString (candidate i)) cov)
  | None => Searching
  end.
Proof.
  intros Hpub H1 H2 H3 H4 Hcov. unfold Forge.
  rewrite Hpub, H1, H2, H3, H4. cbv zeta. rewrite Hcov.
  rewrite Forge_consume_find, find_received.
  by destruct (List.find (forgeable_candidate cov) arrivals).
Qed.

(** X15: whatever [Forge] returns is a forgery: the string is one of the
    candidates received, and the signature verifies for the digest of that
    string against the decoded public key. *)
Theorem X15_Forge_result_verifies (arrivals : list Z) (result : string)
    (forged : Signature) :
  wf_Sum256 ->
  Forge arrivals = Returns result forged ->
  exists pub i,
    HexToPubkey hexPubkey1 = (pub, None) /\
    In i arrivals /\ result = candidate i /\
    Verify (GetMessageFromString result) pub forged = true.
Proof.
  intros Hwf. unfold Forge.
  destruct (HexToPubkey hexPubkey1) as [pub [e|]]; [done|].
  destruct (HexToSignature hexSignature1) as [sig1 [e|]]; [done|].
  destruct (HexToSignature hexSignature2) as [sig2 [e|]]; [done|].
  destruct (HexToSignature hexSignature3) as [sig3 [e|]]; [done|].
  destruct (HexToSignature hexSignature4) as [sig4 [e|]]; [done|].
  cbv zeta.
  destruct (BuildCoverage pub [sig1; sig2; sig3; sig4]) as [cov|msg] eqn:Hcov; [|done].
  rewrite Forge_consume_find, find_received.
  destruct (List.find (forgeable_candidate cov) arrivals) as [i|] eqn:Hfind; [|done].
  cbn [fmap option_fmap option_map]. intros [= <- <-].
  apply List.find_some in Hfind as [Hin Hyes].
  exists pub, i. split; [done|]. split; [done|]. split; [done|].
  eapply forgeable_assembly_verifies; [exact Hcov|apply Hwf|exact Hyes].
Qed.

(** ** When [Forge] panics *)

Lemma Forge_consume_no_panic cov received v :
  Forge_consume cov received <> Panics v.
Proof.
  rewrite Forge_consume_find.
  by destruct (List.find (fun r => negb (String.eqb r "")) received).
Qed.

(** X16: [Forge] panics exactly when its inputs are bad: the key or one of
    the four signatures does not decode, or some block of a signature hashes
    to neither public block at its index.  Whether it panics does not depend
    on the search, and the only string it panics with is ["no match"]. *)
Theorem X16_Forge_panics_iff_bad_inputs (arrivals : list Z) :
  ((exists v, Forge arrivals = Panics v) <-> ~ Forge_inputs_ok) /\
  (forall s, Forge arrivals = Panics (panic_string s) -> s = "no match"%string) /\
  (forall v, Forge arrivals = Panics v -> forall arrivals', Forge arrivals' = Panics v).
Proof using Sum256 DecodeString hexPubkey1 hexSignature1 hexSignature2 hexSignature3
  hexSignature4.
  unfold Forge, Forge_inputs_ok.
  destruct (HexToPubkey hexPubkey1) as [pub [e|]].
  { split; [|split]; [|intros s [=]|intros v Hv arrivals'; exact Hv].
    split; [|eauto]. intros _ (? & ? & ? & ? & ? & [=] & _). }
  destruct (HexToSignature hexSignature1) as [sig1 [e|]].
  { split; [|split]; [|intros s [=]|intros v Hv arrivals'; exact Hv].
    split; [|eauto]. intros _ (? & ? & ? & ? & ? & _ & [=] & _). }
  destruct (HexToSignature hexSignature2) as [sig2 [e|]].
  { split; [|split]; [|intros s [=]|intros v Hv arrivals'; exact Hv].
    split; [|eauto]. intros _ (? & ? & ? & ? & ? & _ & _ & [=] & _). }
  destruct (HexToSignature hexSignature3) as [sig3 [e|]].
  { split; [|split]; [|intros s [=]|intros v Hv arrivals'; exact Hv].
    split; [|eauto]. intros _ (? & ? & ? & ? & ? & _ & _ & _ & [=] & _). }
  destruct (HexToSignature hexSignature4) as [sig4 [e|]].
  { split; [|split]; [|intros s [=]|intros v Hv arrivals'; exact Hv].
    split; [|eauto]. intros _ (? & ? & ? & ? & ? & _ & _ & _ & _ & [=] & _). }
  cbv zeta.
  pose proof (cover_sigs_outcome pub [sig1; sig2; sig3; sig4]) as Hout.
  destruct (BuildCoverage pub [sig1; sig2; sig3; sig4]) as [cov|msg];
    cbn [outcome] in Hout.
  - split; [|split].
    + split.
      * intros [v Hv]. by apply Forge_consume_no_panic in Hv.
      * intros Hbad. exfalso. apply Hbad.
        exists pub, sig1, sig2, sig3, sig4. do 5 (split; [reflexivity|]).
        intros sig i block Hsig Hblock.
        destruct Hout as [Hall _].
        destruct (Hall (i, block)) as [Hz|[_ Ho]].
        { apply elem_of_block_items. eauto. }
        { left. symmetry. exact Hz. }
        { right. symmetry. exact Ho. }
    + intros s Hs. by apply Forge_consume_no_panic in Hs.
    + intros v Hv. by apply Forge_consume_no_panic in Hv.
  - destruct Hout as [-> ([i block] & Hin & HnZ & HnO)].
    split; [|split]; [|by intros s [= <-]|intros v Hv arrivals'; exact Hv].
    split; [|eauto].
    intros _ (pub' & s1 & s2 & s3 & s4 & [= <-] & [= <-] & [= <-] & [= <-] & [= <-] & Hok).
    apply elem_of_block_items in Hin as (sig & Hsig & Hblock).
    destruct (Hok sig i block Hsig Hblock) as [Hz|Ho].
    + apply HnZ. symmetry. exact Hz.
    + apply HnO. symmetry. exact Ho.
Qed.

(** ** Keys with equal halves

    When the two halves of a private key are equal, so are the halves of its
    public key; every block of a signature then hashes to both, while the
    coverage loop records it on the zero side only.  This holds for every
    hash function. *)
Lemma equal_halves_any_hash :
  derived zero_pri (GetPublicKey zero_pri) /\
  exists cov,
    BuildCoverage (GetPublicKey zero_pri) [Sign Message_zero zero_pri] = Continue cov /\
    (forall k, k < MESSAGE_BITS ->
       cached cov k (Preimage (Sign Message_zero zero_pri) !!! k)) /\
    BitAt (oneUsed cov) 0 <> 1%Z /\
    IsForgeable sample_m2 cov = false /\
    Verify sample_m2 (GetPublicKey zero_pri) (Sign Message_zero zero_pri) = true.
Proof.
  assert (Hpub : derived zero_pri (GetPublicKey zero_pri)).
  { apply GetPublicKey_derived. by split. }
  split; [done|].
  destruct (single_signature_coverage zero_pri _ Message_zero eq_refl Hpub)
    as (cov & Hcov & Hcached).
  exists cov. split; [done|]. split; [done|].
  assert (Hone : BitAt (oneUsed cov) 0 <> 1%Z).
  { intros Hset.
    destruct (BuildCoverage_inv _ _ _ Hcov) as (_ & _ & (_ & _ & HO)).
    destruct (HO 0 ltac:(sizes; lia)) as [HOiff _].
    apply HOiff in Hset as (b & _ & Hne & Heq).
    destruct (Hpub 0 ltac:(sizes; lia)) as [HZ0 HO0].
    unfold hits_zero, hits_one in Hne, Heq. cbn [fst snd] in Hne, Heq.
    change (PrivateKey.OneHash zero_pri) with (PrivateKey.ZeroHash zero_pri) in HO0.
    congruence. }
  split; [done|]. split.
  - apply not_true_is_false. intros Hyes.
    assert (Hm : wf_Message sample_m2).
    { split; [reflexivity|]. repeat constructor; unfold is_byte; lia. }
    pose proof (proj1 (IsForgeable_bits _ _ Hm) Hyes 0 ltac:(sizes; lia)) as Hbit.
    unfold bit_covered in Hbit.
    change (BitAt sample_m2 0 =? 0)%Z with false in Hbit.
    apply Z.eqb_eq in Hbit. exact (Hone Hbit).
  - apply Verify_true_iff; [reflexivity|]. intros k Hk.
    rewrite Sign_lookup by (reflexivity || exact Hk).
    destruct (Hpub k Hk) as [HZ HO]. unfold selected.
    change (PrivateKey.OneHash zero_pri) with (PrivateKey.ZeroHash zero_pri) in *.
    destruct (BitAt sample_m2 k =? 0)%Z, (BitAt Message_zero k =? 0)%Z; congruence.
Qed.

End Scheme.

(** * The theorems at sample values *)

(** ** Checks by evaluation *)

Lemma wf_Message_check (m : Message) : wf_Messageb m = true -> wf_Message m.
Proof.
  intros [Hlen Hall]%andb_prop. split; [by apply Nat.eqb_eq|].
  apply Forall_forall. intros b Hb%list_elem_of_In.
  rewrite forallb_forall in Hall.
  apply Hall in Hb as [?%Z.leb_le ?%Z.ltb_lt]%andb_prop. by split.
Qed.

Lemma derived_check Sum256 pri pub :
  derivedb Sum256 pri pub = true -> derived Sum256 pri pub.
Proof.
  intros Hall i Hi. unfold derivedb in Hall. rewrite forallb_forall in Hall.
  destruct (andb_prop _ _ (Hall i ltac:(apply in_seq; lia))) as [H1 H2].
  split; by eapply bool_decide_eq_true_1.
Qed.

Lemma distinct_halves_check pub :
  distinct_halvesb pub = true -> distinct_halves pub.
Proof.
  intros Hall k Hk. unfold distinct_halvesb in Hall. rewrite forallb_forall in Hall.
  pose proof (Hall k ltac:(apply in_seq; lia)) as Hne%negb_true_iff.
  by eapply bool_decide_eq_false_1.
Qed.

Lemma Block_neq_check (a b : Block) : bool_decide (a = b) = false -> a <> b.
Proof. apply bool_decide_eq_false_1. Qed.

(** A coverage build that evaluates to a state. *)
Lemma runs_to_state {R St} (c : ctl R St) :
  (match c with Continue _ => true | Break _ => false end) = true ->
  exists s, c = Continue s.
Proof. destruct c; [eauto|done]. Qed.

(** ** Witnesses *)

Lemma C1_Verify_Sign_witness :
  length sample_m1 = MESSAGE_BYTES /\
  derived checksum256 sample_pri (GetPublicKey checksum256 sample_pri) /\
  Verify checksum256 sample_m1 (GetPublicKey checksum256 sample_pri)
    (Sign sample_m1 sample_pri) = true.
Proof.
  assert (Hd : derived checksum256 sample_pri (GetPublicKey checksum256 sample_pri)).
  { apply derived_check. vm_compute. reflexivity. }
  split; [reflexivity|]. split; [exact Hd|].
  apply (C1_Verify_Sign checksum256 sample_pri _ sample_m1); [reflexivity|exact Hd].
Defined.

Lemma C3_Sign_selects_by_bit_witness :
  length sample_m1 = MESSAGE_BYTES /\ 2 < MESSAGE_BITS /\
  Preimage (Sign sample_m1 sample_pri) !!! 2 = PrivateKey.OneHash sample_pri !!! 2.
Proof.
  assert (H2 : 2 < MESSAGE_BITS) by (vm_compute; lia).
  split; [reflexivity|]. split; [exact H2|].
  exact (proj1 (C3_Sign_selects_by_bit sample_m1 sample_pri 2 eq_refl H2)).
Defined.

Lemma C5_mismatch_panics_witness :
  {| Preimage := Blocks_zero |} ∈ [ {| Preimage := Blocks_zero |} ] /\
  Blocks_zero !! 1 = Some Block_zero /\
  Hash checksum256 Block_zero <> PublicKey.ZeroHash (GetPublicKey checksum256 sample_pri) !!! 1 /\
  Hash checksum256 Block_zero <> PublicKey.OneHash (GetPublicKey checksum256 sample_pri) !!! 1 /\
  BuildCoverage checksum256 (GetPublicKey checksum256 sample_pri)
    [ {| Preimage := Blocks_zero |} ] = Break "no match"%string.
Proof.
  assert (H1 : {| Preimage := Blocks_zero |} ∈ [ {| Preimage := Blocks_zero |} ])
    by constructor.
  assert (H2 : Blocks_zero !! 1 = Some Block_zero) by reflexivity.
  assert (H3 : Hash checksum256 Block_zero <>
               PublicKey.ZeroHash (GetPublicKey checksum256 sample_pri) !!! 1).
  { apply Block_neq_check. vm_compute. reflexivity. }
  assert (H4 : Hash checksum256 Block_zero <>
               PublicKey.OneHash (GetPublicKey checksum256 sample_pri) !!! 1).
  { apply Block_neq_check. vm_compute. reflexivity. }
  repeat (split; [assumption|]).
  exact (C5_mismatch_panics checksum256 _ _ _ 1 Block_zero H1 H2 H3 H4).
Defined.

Lemma C6_per_byte_refines_per_bit_witness :
  wf_Message sample_m3 /\
  IsForgeable sample_m3 sample_cov = IsForgeable_per_bit sample_m3 sample_cov /\
  IsForgeable_per_byte sample_m3 sample_cov = IsForgeable_per_bit sample_m3 sample_cov.
Proof.
  assert (Hm : wf_Message sample_m3) by (apply wf_Message_check; vm_compute; reflexivity).
  split; [exact Hm|].
  exact (C6_per_byte_refines_per_bit sample_m3 sample_cov Hm).
Defined.

Lemma C8_difficulty_counts_uncovered_witness :
  length (zeroUsed sample_cov) = MESSAGE_BYTES /\
  EstimateDifficulty sample_cov = count_uncovered sample_cov.
Proof.
  split; [reflexivity|].
  exact (proj1 (C8_difficulty_counts_uncovered sample_cov eq_refl)).
Defined.

Lemma C4_coverage_bits_witness :
  exists cov,
    BuildCoverage checksum256 (GetPublicKey checksum256 sample_pri)
      [Sign sample_m1 sample_pri; Sign sample_m2 sample_pri] = Continue cov /\
    0 < MESSAGE_BITS /\
    (BitAt (oneUsed cov) 0 = 1%Z <->
       exists sig block,
         sig ∈ [Sign sample_m1 sample_pri; Sign sample_m2 sample_pri] /\
         Preimage sig !! 0 = Some block /\
         Hash checksum256 block =
           PublicKey.OneHash (GetPublicKey checksum256 sample_pri) !!! 0 /\
         Hash checksum256 block <>
           PublicKey.ZeroHash (GetPublicKey checksum256 sample_pri) !!! 0).
Proof.
  destruct (runs_to_state
    (BuildCoverage checksum256 (GetPublicKey checksum256 sample_pri)
       [Sign sample_m1 sample_pri; Sign sample_m2 sample_pri]))
    as [cov Hcov]; [vm_compute; reflexivity|].
  assert (H0 : 0 < MESSAGE_BITS) by (vm_compute; lia).
  exists cov. split; [exact Hcov|]. split; [exact H0|].
  exact (proj1 (proj2 (proj2 (C4_coverage_bits checksum256 _ _ cov 0 Hcov H0)))).
Defined.

Lemma C7_coverage_monotone_witness :
  exists cov cov',
    BuildCoverage checksum256 (GetPublicKey checksum256 sample_pri)
      [Sign sample_m1 sample_pri] = Continue cov /\
    BuildCoverage checksum256 (GetPublicKey checksum256 sample_pri)
      ([Sign sample_m1 sample_pri] ++ [Sign sample_m2 sample_pri]) = Continue cov' /\
    0 < MESSAGE_BITS /\
    (BitAt (zeroUsed cov) 0 = 1%Z -> BitAt (zeroUsed cov') 0 = 1%Z) /\
    (BitAt (oneUsed cov) 0 = 1%Z -> BitAt (oneUsed cov') 0 = 1%Z).
Proof.
  destruct (runs_to_state
    (BuildCoverage checksum256 (GetPublicKey checksum256 sample_pri)
       [Sign sample_m1 sample_pri]))
    as [cov Hcov]; [vm_compute; reflexivity|].
  destruct (runs_to_state
    (BuildCoverage checksum256 (GetPublicKey checksum256 sample_pri)
       ([Sign sample_m1 sample_pri] ++ [Sign sample_m2 sample_pri])))
    as [cov' Hcov']; [vm_compute; reflexivity|].
  assert (H0 : 0 < MESSAGE_BITS) by (vm_compute; lia).
  exists cov, cov'. split; [exact Hcov|]. split; [exact Hcov'|]. split; [exact H0|].
  exact (C7_coverage_monotone checksum256 _ _ _ cov cov' 0 Hcov Hcov' H0).
Defined.

Lemma C2_forgeability_soundness_witness :
  exists cov,
    BuildCoverage checksum256 (GetPublicKey checksum256 sample_pri)
      [Sign sample_m1 sample_pri; Sign sample_m2 sample_pri] = Continue cov /\
    wf_Message sample_m2 /\
    (IsForgeable sample_m2 cov = true ->
     Verify checksum256 sample_m2 (GetPublicKey checksum256 sample_pri)
       (forgeSig sample_m2 cov) = true).
Proof.
  destruct (runs_to_state
    (BuildCoverage checksum256 (GetPublicKey checksum256 sample_pri)
       [Sign sample_m1 sample_pri; Sign sample_m2 sample_pri]))
    as [cov Hcov]; [vm_compute; reflexivity|].
  assert (Hm : wf_Message sample_m2) by (apply wf_Message_check; vm_compute; reflexivity).
  exists cov. split; [exact Hcov|]. split; [exact Hm|].
  exact (proj1 (C2_forgeability_soundness checksum256 _ _ cov sample_m2 Hcov Hm)).
Defined.

Lemma C9_non_reuse_soundness_witness :
  length sample_m1 = MESSAGE_BYTES /\
  wf_Message sample_m3 /\
  derived checksum256 sample_pri (GetPublicKey checksum256 sample_pri) /\
  distinct_halves (GetPublicKey checksum256 sample_pri) /\
  exists cov,
    BuildCoverage checksum256 (GetPublicKey checksum256 sample_pri)
      [Sign sample_m1 sample_pri] = Continue cov /\
    (sample_m3 <> sample_m1 ->
     IsForgeable sample_m3 cov = false ->
     Verify checksum256 sample_m3 (GetPublicKey checksum256 sample_pri)
       (Sign sample_m1 sample_pri) = false).
Proof.
  assert (Hm : wf_Message sample_m3) by (apply wf_Message_check; vm_compute; reflexivity).
  assert (Hd : derived checksum256 sample_pri (GetPublicKey checksum256 sample_pri)).
  { apply derived_check. vm_compute. reflexivity. }
  assert (Hh : distinct_halves (GetPublicKey checksum256 sample_pri)).
  { apply distinct_halves_check. vm_compute. reflexivity. }
  split; [reflexivity|]. split; [exact Hm|]. split; [exact Hd|]. split; [exact Hh|].
  exact (C9_non_reuse_soundness checksum256 sample_pri _ sample_m1 sample_m3
           eq_refl Hm Hd Hh).
Defined.

(** ** Counterexamples: a key with equal halves *)

(** C2 as stated fails: under the public key of [zero_pri], [sample_m2] is
    not forgeable from the coverage of one signature, and yet that signature,
    all of whose blocks are cached for their index, verifies for it. *)
Lemma C2_counterexample :
  exists cov assembled,
    BuildCoverage checksum256 (GetPublicKey checksum256 zero_pri)
      [Sign Message_zero zero_pri] = Continue cov /\
    wf_Message sample_m2 /\
    IsForgeable sample_m2 cov = false /\
    (forall k, k < MESSAGE_BITS -> cached cov k (Preimage assembled !!! k)) /\
    Verify checksum256 sample_m2 (GetPublicKey checksum256 zero_pri) assembled = true.
Proof.
  destruct (equal_halves_any_hash checksum256)
    as (_ & cov & Hcov & Hcached & _ & Hno & Hver).
  exists cov, (Sign Message_zero zero_pri).
  split; [exact Hcov|]. split; [apply wf_Message_check; vm_compute; reflexivity|].
  split; [exact Hno|]. split; [exact Hcached|exact Hver].
Qed.

(** C4 as stated fails: a processed block at index 0 hashes to
    [OneHash[0]], and bit 0 of [oneUsed] is not set. *)
Lemma C4_counterexample :
  exists cov,
    BuildCoverage checksum256 (GetPublicKey checksum256 zero_pri)
      [Sign Message_zero zero_pri] = Continue cov /\
    (exists sig block,
       sig ∈ [Sign Message_zero zero_pri] /\
       Preimage sig !! 0 = Some block /\
       Hash checksum256 block =
         PublicKey.OneHash (GetPublicKey checksum256 zero_pri) !!! 0) /\
    BitAt (oneUsed cov) 0 <> 1%Z.
Proof.
  destruct (equal_halves_any_hash checksum256)
    as (_ & cov & Hcov & _ & Hone & _).
  exists cov. split; [exact Hcov|]. split; [|exact Hone].
  exists (Sign Message_zero zero_pri), Block_zero.
  split; [constructor|]. split; vm_compute; reflexivity.
Qed.

(** C9 as stated fails: [sample_m2] differs from the signed message and is
    not forgeable from the coverage of the signature, and the signature
    verifies for it. *)
Lemma C9_counterexample :
  length Message_zero = MESSAGE_BYTES /\
  wf_Message sample_m2 /\
  derived checksum256 zero_pri (GetPublicKey checksum256 zero_pri) /\
  sample_m2 <> Message_zero /\
  exists cov,
    BuildCoverage checksum256 (GetPublicKey checksum256 zero_pri)
      [Sign Message_zero zero_pri] = Continue cov /\
    IsForgeable sample_m2 cov = false /\
    Verify checksum256 sample_m2 (GetPublicKey checksum256 zero_pri)
      (Sign Message_zero zero_pri) = true.
Proof.
  destruct (equal_halves_any_hash checksum256)
    as (Hd & cov & Hcov & _ & _ & Hno & Hver).
  split; [reflexivity|]. split; [apply wf_Message_check; vm_compute; reflexivity|].
  split; [exact Hd|]. split; [discriminate|].
  exists cov. split; [exact Hcov|]. split; [exact Hno|exact Hver].
Qed.

(** ** The functions on small inputs *)

Example BitAt_most_significant_first :
  BitAt sample_m2 0 = 1%Z /\ BitAt sample_m2 1 = 0%Z /\
  BitAt sample_m1 7 = 1%Z /\ BitAt sample_m1 8 = 0%Z.
Proof. repeat split. Qed.

Example BlockFromByteSlice_short :
  BlockFromByteSlice [1; 2; 3]%Z = [1; 2; 3]%Z ++ replicate 29 0%Z.
Proof. reflexivity. Qed.

Example BlockFromByteSlice_long :
  BlockFromByteSlice (replicate 40 9%Z) = replicate 32 9%Z.
Proof. reflexivity. Qed.

Example Sign_reveals_by_bit :
  take 3 (Preimage (Sign sample_m1 sample_pri)) =
  [PrivateKey.OneHash sample_pri !!! 0;
   PrivateKey.ZeroHash sample_pri !!! 1;
   PrivateKey.OneHash sample_pri !!! 2].
Proof. vm_compute. reflexivity. Qed.

Example Verify_rejects_other_message :
  Verify checksum256 sample_m3 (GetPublicKey checksum256 sample_pri)
    (Sign sample_m1 sample_pri) = false.
Proof. vm_compute. reflexivity. Qed.

Example coverage_of_two_signatures :
  match BuildCoverage checksum256 (GetPublicKey checksum256 sample_pri)
          [Sign sample_m1 sample_pri; Sign sample_m2 sample_pri] with
  | Continue cov =>
      zeroUsed cov = zeroUsed sample_cov /\ oneUsed cov = oneUsed sample_cov /\
      EstimateDifficulty cov = 253%Z /\
      IsForgeable sample_m2 cov = true /\ IsForgeable sample_m3 cov = false
  | Break _ => False
  end.
Proof. vm_compute. repeat split. Qed.

Example difficulty_of_empty_coverage : EstimateDifficulty Coverage_init = 256%Z.
Proof. reflexivity. Qed.

Example isForgeable_sends_empty_string :
  isForgeable checksum256 Message_zero Message_zero "zlian forge 1" = ""%string.
Proof. vm_compute. reflexivity. Qed.

(** * The further properties at sample values *)

Lemma wf_blocks_check blocks : wf_blocksb blocks = true -> wf_blocks blocks.
Proof.
  intros [Hlen Hall]%andb_prop. split; [by apply Nat.eqb_eq|].
  apply Forall_forall. intros b Hb%list_elem_of_In.
  rewrite forallb_forall in Hall. by apply Nat.eqb_eq, Hall.
Qed.

Lemma decodes_to_check r bts : decodes_tob r bts = true -> r = (bts, None).
Proof.
  destruct r as [bts' [e|]]; intros [Hb He]%andb_prop; [done|].
  apply bool_decide_eq_true_1 in Hb. simpl in Hb. by subst.
Qed.

Lemma lengths_check (ms : list Message) :
  forallb (fun m => length m =? MESSAGE_BYTES) ms = true ->
  Forall (fun m => length m = MESSAGE_BYTES) ms.
Proof.
  intros Hall. apply Forall_forall. intros m Hm%list_elem_of_In.
  rewrite forallb_forall in Hall. by apply Nat.eqb_eq, Hall.
Qed.

Lemma checksum256_wf : wf_Sum256 checksum256.
Proof.
  intros data. unfold checksum256. split.
  - by rewrite List.length_map, length_seq.
  - apply Forall_forall. intros b (k & <- & _)%list_elem_of_In%in_map_iff.
    apply Z.mod_pos_bound. lia.
Qed.

Lemma sample_pub_derived : derived checksum256 sample_pri sample_pub.
Proof. apply derived_check. vm_compute. reflexivity. Defined.

Lemma sample_pub_distinct : distinct_halves sample_pub.
Proof. apply distinct_halves_check. vm_compute. reflexivity. Defined.

Lemma X1_Verify_accepts_iff_witness :
  length sample_m1 = MESSAGE_BYTES /\
  (Verify checksum256 sample_m1 sample_pub sample_sig3 = true <->
   forall k, k < MESSAGE_BITS ->
     Hash checksum256 (Preimage sample_sig3 !!! k) =
     (if (BitAt sample_m1 k =? 0)%Z then PublicKey.ZeroHash sample_pub !!! k
      else PublicKey.OneHash sample_pub !!! k)).
Proof.
  split; [reflexivity|].
  exact (X1_Verify_accepts_iff checksum256 sample_m1 sample_pub sample_sig3 eq_refl).
Defined.

Lemma X2_Sign_reads_selected_blocks_only_witness :
  length Message_zero = MESSAGE_BYTES /\
  Sign Message_zero sample_pri =
  Sign Message_zero (PrivateKey.Build (PrivateKey.ZeroHash sample_pri) Blocks_zero).
Proof.
  split; [reflexivity|].
  apply (X2_Sign_reads_selected_blocks_only Message_zero); [reflexivity|].
  intros k Hk. split; [reflexivity|].
  unfold Message_zero. rewrite BitAt_zero by exact Hk. discriminate.
Defined.

Lemma X3_forgeable_iff_bits_were_signed_witness :
  wf_Message sample_m3 /\
  exists cov,
    BuildCoverage checksum256 sample_pub
      ((fun m' => Sign m' sample_pri) <$> [sample_m1; sample_m2]) = Continue cov /\
    (IsForgeable sample_m3 cov = true <->
     forall k, k < MESSAGE_BITS ->
       exists m', m' ∈ [sample_m1; sample_m2] /\ BitAt m' k = BitAt sample_m3 k).
Proof.
  assert (Hm : wf_Message sample_m3) by (apply wf_Message_check; vm_compute; reflexivity).
  split; [exact Hm|].
  apply (X3_forgeable_iff_bits_were_signed checksum256 sample_pri sample_pub);
    [exact sample_pub_derived|exact sample_pub_distinct| |exact Hm].
  apply lengths_check. reflexivity.
Defined.

Lemma forgeable_check {R} (c : ctl R Coverage) m :
  (match c with Continue cov => IsForgeable m cov | Break _ => false end) = true ->
  exists cov, c = Continue cov /\ IsForgeable m cov = true.
Proof. destruct c; [eauto|done]. Qed.

Lemma X4_forgeable_stays_forgeable_witness :
  exists cov cov',
    BuildCoverage checksum256 sample_pub [sample_sig3] = Continue cov /\
    BuildCoverage checksum256 sample_pub ([sample_sig3] ++ [sample_sig4]) = Continue cov' /\
    wf_Message sample_m1 /\
    IsForgeable sample_m1 cov = true /\
    IsForgeable sample_m1 cov' = true.
Proof.
  destruct (forgeable_check (BuildCoverage checksum256 sample_pub [sample_sig3]) sample_m1)
    as (cov & Hcov & Hyes); [vm_compute; reflexivity|].
  destruct (runs_to_state
    (BuildCoverage checksum256 sample_pub ([sample_sig3] ++ [sample_sig4])))
    as [cov' Hcov']; [vm_compute; reflexivity|].
  assert (Hm : wf_Message sample_m1) by (apply wf_Message_check; vm_compute; reflexivity).
  exists cov, cov'.
  split; [exact Hcov|]. split; [exact Hcov'|]. split; [exact Hm|]. split; [exact Hyes|].
  exact (X4_forgeable_stays_forgeable checksum256 sample_pub _ _ cov cov' sample_m1
           Hcov Hcov' Hm Hyes).
Defined.

Lemma X5_difficulty_bounded_and_antitone_witness :
  exists cov cov',
    BuildCoverage checksum256 sample_pub [sample_sig3] = Continue cov /\
    BuildCoverage checksum256 sample_pub ([sample_sig3] ++ [sample_sig4]) = Continue cov' /\
    (0 <= EstimateDifficulty cov' <= EstimateDifficulty cov)%Z /\
    (EstimateDifficulty cov <= 256)%Z.
Proof.
  destruct (runs_to_state (BuildCoverage checksum256 sample_pub [sample_sig3]))
    as [cov Hcov]; [vm_compute; reflexivity|].
  destruct (runs_to_state
    (BuildCoverage checksum256 sample_pub ([sample_sig3] ++ [sample_sig4])))
    as [cov' Hcov']; [vm_compute; reflexivity|].
  exists cov, cov'. split; [exact Hcov|]. split; [exact Hcov'|].
  exact (X5_difficulty_bounded_and_antitone checksum256 sample_pub _ _ cov cov' Hcov Hcov').
Defined.

Lemma X6_coverage_order_irrelevant_witness :
  [sample_sig3; sample_sig4] ≡ₚ [sample_sig4; sample_sig3] /\
  exists cov cov',
    BuildCoverage checksum256 sample_pub [sample_sig3; sample_sig4] = Continue cov /\
    BuildCoverage checksum256 sample_pub [sample_sig4; sample_sig3] = Continue cov' /\
    EstimateDifficulty cov' = EstimateDifficulty cov.
Proof.
  assert (Hperm : [sample_sig3; sample_sig4] ≡ₚ [sample_sig4; sample_sig3])
    by apply perm_swap.
  split; [exact Hperm|].
  destruct (runs_to_state (BuildCoverage checksum256 sample_pub [sample_sig3; sample_sig4]))
    as [cov Hcov]; [vm_compute; reflexivity|].
  destruct (X6_coverage_order_irrelevant checksum256 sample_pub _ _ cov Hperm Hcov)
    as (cov' & Hcov' & _ & _ & Hd).
  exists cov, cov'. split; [exact Hcov|]. split; [exact Hcov'|exact Hd].
Defined.

Lemma X8_HexToPubkey_round_trip_witness :
  wf_PublicKey sample_pub /\
  Z.of_nat (String.length sample_hexPubkey1) = 32768%Z /\
  hex_DecodeString sample_hexPubkey1 = (PublicKey_bytes sample_pub, None) /\
  HexToPubkey hex_DecodeString sample_hexPubkey1 = (sample_pub, None).
Proof.
  assert (Hwf : wf_PublicKey sample_pub).
  { split; apply wf_blocks_check; vm_compute; reflexivity. }
  assert (Hlen : Z.of_nat (String.length sample_hexPubkey1) = 32768%Z)
    by (vm_compute; reflexivity).
  assert (Hdec : hex_DecodeString sample_hexPubkey1 = (PublicKey_bytes sample_pub, None)).
  { apply decodes_to_check. vm_compute. reflexivity. }
  split; [exact Hwf|]. split; [exact Hlen|]. split; [exact Hdec|].
  exact (X8_HexToPubkey_round_trip hex_DecodeString sample_pub sample_hexPubkey1
           Hwf Hlen Hdec).
Defined.

Lemma X10_HexToSignature_round_trip_witness :
  wf_Signature sample_sig3 /\
  Z.of_nat (String.length sample_hexSignature3) = 16384%Z /\
  hex_DecodeString sample_hexSignature3 = (concat (Preimage sample_sig3), None) /\
  HexToSignature hex_DecodeString sample_hexSignature3 = (sample_sig3, None).
Proof.
  assert (Hwf : wf_Signature sample_sig3).
  { apply wf_blocks_check. vm_compute. reflexivity. }
  assert (Hlen : Z.of_nat (String.length sample_hexSignature3) = 16384%Z)
    by (vm_compute; reflexivity).
  assert (Hdec : hex_DecodeString sample_hexSignature3 =
                 (concat (Preimage sample_sig3), None)).
  { apply decodes_to_check. vm_compute. reflexivity. }
  split; [exact Hwf|]. split; [exact Hlen|]. split; [exact Hdec|].
  exact (X10_HexToSignature_round_trip hex_DecodeString sample_sig3 sample_hexSignature3
           Hwf Hlen Hdec).
Defined.

Lemma generated_check {A B W} (r : A * B * option error * W) :
  (match r.1.2 with None => true | Some _ => false end) = true ->
  exists a b w, r = (a, b, None, w).
Proof. destruct r as [[[a b] [e|]] w]; [done|eauto]. Qed.

Lemma X12_GenerateKey_keys_verify_witness :
  exists pri pub w',
    GenerateKey checksum256 nat sample_Read 0 = (pri, pub, None, w') /\
    derived checksum256 pri pub /\
    Verify checksum256 sample_m1 pub (Sign sample_m1 pri) = true.
Proof.
  destruct (generated_check (GenerateKey checksum256 nat sample_Read 0))
    as (pri & pub & w' & Hgen); [vm_compute; reflexivity|].
  destruct (X12_GenerateKey_keys_verify checksum256 nat sample_Read 0 w' pri pub Hgen)
    as (_ & _ & Hder & Hver).
  exists pri, pub, w'. split; [exact Hgen|]. split; [exact Hder|].
  apply Hver. reflexivity.
Defined.

Lemma pubkey_check (r : PublicKey.t * option error) (pub : PublicKey.t) :
  bool_decide (PublicKey.ZeroHash r.1 = PublicKey.ZeroHash pub) &&
  bool_decide (PublicKey.OneHash r.1 = PublicKey.OneHash pub) &&
  match r.2 with None => true | Some _ => false end = true ->
  r = (pub, None).
Proof.
  destruct r as [[z o] [e|]], pub as [z' o'];
    intros [[Hz Ho]%andb_prop He]%andb_prop; [done|].
  apply bool_decide_eq_true_1 in Hz, Ho. simpl in Hz, Ho. by subst.
Qed.

Lemma signature_check (r : Signature * option error) (sig : Signature) :
  bool_decide (Preimage r.1 = Preimage sig) &&
  match r.2 with None => true | Some _ => false end = true ->
  r = (sig, None).
Proof.
  destruct r as [[p] [e|]], sig as [p']; intros [Hp He]%andb_prop; [done|].
  apply bool_decide_eq_true_1 in Hp. simpl in Hp. by subst.
Qed.

Lemma returns_check (o : Forge_outcome) :
  (match o with Returns _ _ => true | _ => false end) = true ->
  exists result forged, o = Returns result forged.
Proof. destruct o; try done. eauto. Qed.

Lemma X14_Forge_returns_first_forgeable_witness :
  exists cov,
    HexToPubkey hex_DecodeString sample_hexPubkey1 = (sample_pub, None) /\
    HexToSignature hex_DecodeString sample_hexSignature1 = (sample_sig1, None) /\
    HexToSignature hex_DecodeString sample_hexSignature2 = (sample_sig2, None) /\
    HexToSignature hex_DecodeString sample_hexSignature3 = (sample_sig3, None) /\
    HexToSignature hex_DecodeString sample_hexSignature4 = (sample_sig4, None) /\
    BuildCoverage checksum256 sample_pub
      [sample_sig1; sample_sig2; sample_sig3; sample_sig4] = Continue cov /\
    Forge checksum256 hex_DecodeString sample_hexPubkey1 sample_hexSignature1
      sample_hexSignature2 sample_hexSignature3 sample_hexSignature4
      [555735188; 555735189]%Z =
    match find (forgeable_candidate checksum256 cov) [555735188; 555735189]%Z with
    | Some i =>
        Returns (candidate i)
          (forgeSig (GetMessageFromString checksum256 (candidate i)) cov)
    | None => Searching
    end.
Proof.
  assert (Hpub : HexToPubkey hex_DecodeString sample_hexPubkey1 = (sample_pub, None))
    by (apply pubkey_check; vm_compute; reflexivity).
  assert (Hsig1 : HexToSignature hex_DecodeString sample_hexSignature1 = (sample_sig1, None))
    by (apply signature_check; vm_compute; reflexivity).
  assert (Hsig2 : HexToSignature hex_DecodeString sample_hexSignature2 = (sample_sig2, None))
    by (apply signature_check; vm_compute; reflexivity).
  assert (Hsig3 : HexToSignature hex_DecodeString sample_hexSignature3 = (sample_sig3, None))
    by (apply signature_check; vm_compute; reflexivity).
  assert (Hsig4 : HexToSignature hex_DecodeString sample_hexSignature4 = (sample_sig4, None))
    by (apply signature_check; vm_compute; reflexivity).
  destruct (runs_to_state (BuildCoverage checksum256 sample_pub
      [sample_sig1; sample_sig2; sample_sig3; sample_sig4]))
    as [cov Hcov]; [vm_compute; reflexivity|].
  exists cov.
  split; [exact Hpub|]. split; [exact Hsig1|]. split; [exact Hsig2|].
  split; [exact Hsig3|]. split; [exact Hsig4|]. split; [exact Hcov|].
  exact (X14_Forge_returns_first_forgeable checksum256 hex_DecodeString
           sample_hexPubkey1 sample_hexSignature1 sample_hexSignature2
           sample_hexSignature3 sample_hexSignature4
           sample_pub sample_sig1 sample_sig2 sample_sig3 sample_sig4 cov
           [555735188; 555735189]%Z Hpub Hsig1 Hsig2 Hsig3 Hsig4 Hcov).
Defined.

Lemma X15_Forge_result_verifies_witness :
  wf_Sum256 checksum256 /\
  exists result forged,
    Forge checksum256 hex_DecodeString sample_hexPubkey1 sample_hexSignature1
      sample_hexSignature2 sample_hexSignature3 sample_hexSignature4
      [555735188; 555735189]%Z = Returns result forged /\
    exists pub i,
      HexToPubkey hex_DecodeString sample_hexPubkey1 = (pub, None) /\
      In i [555735188; 555735189]%Z /\
      result = candidate i /\
      Verify checksum256 (GetMessageFromString checksum256 result) pub forged = true.
Proof.
  split; [exact checksum256_wf|].
  destruct (returns_check
    (Forge checksum256 hex_DecodeString sample_hexPubkey1 sample_hexSignature1
       sample_hexSignature2 sample_hexSignature3 sample_hexSignature4
       [555735188; 555735189]%Z))
    as (result & forged & Hret); [vm_compute; reflexivity|].
  exists result, forged. split; [exact Hret|].
  exact (X15_Forge_result_verifies checksum256 hex_DecodeString
           sample_hexPubkey1 sample_hexSignature1 sample_hexSignature2
           sample_hexSignature3 sample_hexSignature4
           [555735188; 555735189]%Z result forged checksum256_wf Hret).
Defined.

(** ** Further sample runs *)

(** A key string of the wrong length is refused before it is decoded. *)
Example HexToPubkey_short :
  HexToPubkey hex_DecodeString "abcd" =
  (PublicKey.Build Blocks_zero Blocks_zero,
   Some (Errorf "Pubkey string %d characters, expect %d" [4; 32768]%Z)).
Proof. vm_compute. reflexivity. Qed.

(** A failing random source makes key generation return its error. *)
Example GenerateKey_failing_source :
  (GenerateKey checksum256 nat failing_Read 0).1.2 = Some (ReadError "unavailable").
Proof. vm_compute. reflexivity. Qed.

(** With one signature known, the sample candidates are not forgeable and the
    search goes on. *)
Example Forge_keeps_searching :
  Forge checksum256 hex_DecodeString sample_hexPubkey1 sample_hexSignature3
    sample_hexSignature3 sample_hexSignature3 sample_hexSignature3
    [555735188; 555735189]%Z = Searching.
Proof. vm_compute. reflexivity. Qed.

(** A signature string of the wrong length makes [Forge] panic with the
    error of [HexToSignature]. *)
Example Forge_panics_on_short_signature :
  Forge checksum256 hex_DecodeString sample_hexPubkey1 sample_hexSignature1
    "abcd" sample_hexSignature3 sample_hexSignature4 [555735188]%Z =
  Panics (panic_error
            (Errorf "Pubkey string %d characters, expect %d" [4; 16384]%Z)).
Proof. vm_compute. reflexivity. Qed.

(** A signature made with another private key makes it panic with
    ["no match"]. *)
Example Forge_panics_on_foreign_signature :
  Forge checksum256 hex_DecodeString sample_hexPubkey1 sample_hexSignature1
    sample_hexSignature2 sample_hexSignature3
    (sample_hexSignature (Sign sample_m1 zero_pri)) [555735188]%Z =
  Panics (panic_string "no match").
Proof. vm_compute. reflexivity. Qed.
